(** * The TFFS record decoder of fritz_tffs_read.c

    A shallow embedding of [tffs_find_id] and [tffs_parse]
    (src/fritz_tffs_read.c) and the properties of the record scan.

    Data model of the embedding:
    - C integers are [Z] with the wrap-around of their width written out
      ([uint16_t], [uint32_t]; [size_t] and [unsigned long] are 64 bits wide,
      the LP64 model);
    - the memory behind the [uint8_t *buffer] argument is a [list byte]; an
      access outside of it is undefined behaviour and ends the run in [Fault];
    - a pointer [&ids[i]] into the global table is the index [i]; the
      [calloc]ed block a [val] field points to is [option (list byte)], with
      [None] for [NULL];
    - the globals [ids] and [tffs_size] are passed explicitly, the table is
      returned with the result since [tffs_parse] updates it in place. *)

From Stdlib Require Import ZArith Lia.
From Stdlib Require Import Strings.Byte.
From stdpp Require Import base list strings.

Local Open Scope Z_scope.

(** ** Machine integers and bytes *)

Definition wrap32 (z : Z) : Z := z mod 2 ^ 32.
Definition wrap64 (z : Z) : Z := z mod 2 ^ 64.

Definition byte_to_Z (b : byte) : Z := Z.of_N (Byte.to_N b).

Definition Z_to_byte (z : Z) : byte :=
  match Byte.of_N (Z.to_N (z mod 256)) with
  | Some b => b
  | None => Byte.x00
  end.

(** Byte order of the machine the tool runs on. *)
Inductive endianness := LittleEndian | BigEndian.

(** A [uint16_t] lvalue over two adjacent bytes of memory. *)
Definition load16 (host : endianness) (b0 b1 : byte) : Z :=
  match host with
  | LittleEndian => Z.lor (byte_to_Z b0) (Z.shiftl (byte_to_Z b1) 8)
  | BigEndian => Z.lor (Z.shiftl (byte_to_Z b0) 8) (byte_to_Z b1)
  end.

Definition store16 (host : endianness) (v : Z) : byte * byte :=
  match host with
  | LittleEndian => (Z_to_byte (Z.land v 255), Z_to_byte (Z.shiftr v 8))
  | BigEndian => (Z_to_byte (Z.shiftr v 8), Z_to_byte (Z.land v 255))
  end.

Definition bswap16 (x : Z) : Z :=
  Z.lor (Z.land (Z.shiftr x 8) 255) (Z.shiftl (Z.land x 255) 8).

(** [ntohs] of <arpa/inet.h>: network (big-endian) to host byte order. *)
Definition ntohs (host : endianness) (x : Z) : Z :=
  match host with
  | LittleEndian => bswap16 x
  | BigEndian => x
  end.

(** ** The key table *)

(** [struct tffs_id]. *)
Record tffs_id := mk_tffs_id {
  id : Z;
  name : string;
  val : option (list byte);
  offset : Z;
  len : Z
}.

(** An initialiser [{ tag, "name" }]: the other members are zero. *)
Definition entry (tag : Z) (nm : string) : tffs_id :=
  {| id := tag; name := nm; val := None; offset := 0; len := 0 |}.

(** The global [ids[]] as the program starts. *)
Definition ids : list tffs_id :=
  [ entry 0x0100 "hw_revision";
    entry 0x0101 "productid";
    entry 0x0102 "serialnumber";
    entry 0x0103 "dmc";
    entry 0x0104 "hw_subrevision";
    entry 0x0182 "bootloader_version";
    entry 0x0184 "macbluetooth";
    entry 0x0188 "maca";
    entry 0x0189 "macb";
    entry 0x018A "macwlan";
    entry 0x018B "macdsl";
    entry 0x018F "my_ipaddress";
    entry 0x0195 "macwlan2";
    entry 0x01A3 "usb_device_id";
    entry 0x01A3 "usb_revision_id";
    entry 0x01A4 "usb_device_name";
    entry 0x01A5 "usb_manufacturer_name";
    entry 0x01A6 "firmware_version";
    entry 0x01A7 "language";
    entry 0x01A8 "country";
    entry 0x01A9 "annex";
    entry 0x01AB "wlan_key";
    entry 0x01AD "http_key";
    entry 0x01B8 "wlan_cal";
    entry 0x01FD "urlader_version" ].

(** The [for] loop of [tffs_find_id], entered at index [i] with the entries
    from [i] on still to compare.  The [int] argument is converted to
    [uint32_t] for the comparison with the [id] member. *)
Fixpoint tffs_find_from (tbl : list tffs_id) (i : nat) (tag : Z) : option nat :=
  match tbl with
  | [] => None
  | e :: rest =>
      if wrap32 tag =? id e then Some i else tffs_find_from rest (S i) tag
  end.

(** [tffs_find_id]: the index of the entry the returned pointer points at,
    [None] for [NULL]. *)
Definition tffs_find_id (tbl : list tffs_id) (tag : Z) : option nat :=
  tffs_find_from tbl 0 tag.

(** ** The scan *)

(** Result of a run of [tffs_parse]: the returned count with the table and
    the buffer as the call leaves them, or an access outside the memory
    behind [buffer]. *)
Inductive outcome :=
  | Returned (cnt : Z) (tbl : list tffs_id) (buf : list byte)
  | Fault.

(** The variables of the loop: the memory behind [buffer], the global table,
    [pos] and [count]. *)
Record scan := mk_scan {
  buffer : list byte;
  table : list tffs_id;
  pos : Z;
  count : Z
}.

Inductive step :=
  | Continue (s : scan)
  | Stop (o : outcome).

(** Read and write of a [uint16_t] member at byte offset [p]. *)
Definition read16 (host : endianness) (buf : list byte) (p : Z) : option Z :=
  if p <? 0 then None else
  match buf !! Z.to_nat p, buf !! Z.to_nat (p + 1) with
  | Some b0, Some b1 => Some (load16 host b0 b1)
  | _, _ => None
  end.

Definition write16 (host : endianness) (buf : list byte) (p v : Z) : list byte :=
  let '(b0, b1) := store16 host v in
  <[Z.to_nat (p + 1) := b1]> (<[Z.to_nat p := b0]> buf).

(** The source window of [memcpy(id->val, &buffer[pos], entry->len)]. *)
Definition memcpy_src (buf : list byte) (p n : Z) : option (list byte) :=
  if (0 <=? p) && (p + n <=? Z.of_nat (length buf))
  then Some (take (Z.to_nat n) (drop (Z.to_nat p) buf))
  else None.

(** The three assignments to the matched entry; the [calloc]ed block has
    [entry->len + 1] zero bytes, the payload is copied over its start. *)
Definition store_value (p n : Z) (payload : list byte) (e : tffs_id) : tffs_id :=
  {| id := id e; name := name e;
     val := Some (payload ++ [Byte.x00]);
     offset := p;
     len := n |}.

Section Parse.

Variable host : endianness.
(** The global [tffs_size]. *)
Variable tffs_size : Z.

(** One run of the body of the [while] loop. *)
Definition tffs_body (st : scan) : step :=
  match read16 host (buffer st) (pos st) with
  | None => Stop Fault
  | Some raw_id =>
    let tag := ntohs host raw_id in
    let buf1 := write16 host (buffer st) (pos st) tag in
    match read16 host buf1 (pos st + 2) with
    | None => Stop Fault
    | Some raw_len =>
      let L := ntohs host raw_len in
      let buf2 := write16 host buf1 (pos st + 2) L in
      if tag =? 0xffff then Stop (Returned (count st) (table st) buf2)
      else
        let pos1 := wrap32 (pos st + 4) in
        let pos2 := wrap32 (pos1 + Z.land (L + 3) (Z.lnot 3)) in
        match tffs_find_id (table st) tag with
        | Some i =>
          match memcpy_src buf2 pos1 L with
          | None => Stop Fault
          | Some payload =>
            Continue {| buffer := buf2;
                        table := alter (store_value pos1 L payload) i (table st);
                        pos := pos2;
                        count := wrap32 (count st + 1) |}
          end
        | None =>
          Continue {| buffer := buf2; table := table st;
                      pos := pos2; count := count st |}
        end
    end
  end.

(** The [while] loop; [fuel] bounds the number of evaluations of its
    condition, [None] means the bound was too small. *)
Fixpoint tffs_loop (fuel : nat) (st : scan) : option outcome :=
  match fuel with
  | O => None
  | S fuel' =>
    if wrap64 (pos st + 4) <? tffs_size then
      match tffs_body st with
      | Continue st' => tffs_loop fuel' st'
      | Stop o => Some o
      end
    else Some (Returned (count st) (table st) (buffer st))
  end.

(** [tffs_parse(buffer)], run on the table [tbl]. *)
Definition tffs_parse (fuel : nat) (tbl : list tffs_id) (buf : list byte)
  : option outcome :=
  tffs_loop fuel {| buffer := buf; table := tbl; pos := 0; count := 0 |}.

End Parse.

Import Byte.


(** ** The record stream of the wire format

    A second, read-only description of what a buffer holds, following the
    format itself: a header is two big-endian 16-bit fields, the payload
    follows the header and is padded to a multiple of 4 bytes, the tag
    [0xFFFF] ends the stream, and a header needs [p + 4 < size].  The scan
    of [tffs_parse] is compared with it below. *)

Record header := mk_header {
  h_pos : Z;
  h_tag : Z;
  h_len : Z
}.

Definition be16 (buf : list byte) (p : Z) : option Z :=
  match buf !! Z.to_nat p, buf !! Z.to_nat (p + 1) with
  | Some b0, Some b1 => Some (256 * byte_to_Z b0 + byte_to_Z b1)
  | _, _ => None
  end.

(** A payload length rounded up to the next multiple of 4. *)
Definition padded (L : Z) : Z := 4 * ((L + 3) / 4).

Definition sentinel : Z := 0xffff.

(** The headers of the stream that starts at offset [p], the sentinel's
    header included. *)
Fixpoint headers_from (fuel : nat) (size : Z) (buf : list byte) (p : Z)
  : list header :=
  match fuel with
  | O => []
  | S fuel' =>
    if p + 4 <? size then
      match be16 buf p, be16 buf (p + 2) with
      | Some tag, Some L =>
        mk_header p tag L ::
          (if tag =? sentinel then []
           else headers_from fuel' size buf (p + 4 + padded L))
      | _, _ => []
      end
    else []
  end.

Definition wire_headers (size : Z) (buf : list byte) : list header :=
  headers_from (S (Z.to_nat size)) size buf 0.

(** The records: every header but the sentinel's. *)
Definition is_record (h : header) : bool := negb (h_tag h =? sentinel).

Definition wire_records (size : Z) (buf : list byte) : list header :=
  List.filter is_record (wire_headers size buf).

Definition payload_pos (h : header) : Z := h_pos h + 4.

(** The payload window of a record lies inside the memory. *)
Definition in_bounds (buf : list byte) (h : header) : bool :=
  payload_pos h + h_len h <=? Z.of_nat (length buf).

Definition payload (buf : list byte) (h : header) : list byte :=
  take (Z.to_nat (h_len h)) (drop (Z.to_nat (payload_pos h)) buf).

(** The record's tag is one of the table's. *)
Definition registered (tbl : list tffs_id) (h : header) : bool :=
  match tffs_find_id tbl (h_tag h) with
  | Some _ => true
  | None => false
  end.

(** What a list of records does to the table and the count, one record
    after the other; [None] when a record with a registered tag has a
    payload window that leaves the memory. *)
Fixpoint decode_records (buf : list byte) (hs : list header)
    (tbl : list tffs_id) (c : Z) : option (Z * list tffs_id) :=
  match hs with
  | [] => Some (c, tbl)
  | h :: hs' =>
    match tffs_find_id tbl (h_tag h) with
    | None => decode_records buf hs' tbl c
    | Some i =>
      if in_bounds buf h then
        decode_records buf hs'
          (alter (store_value (payload_pos h) (h_len h) (payload buf h)) i tbl)
          (c + 1)
      else None
    end
  end.

(** The header fields written back in the byte order of the host. *)
Definition host_header (host : endianness) (buf : list byte) (h : header)
  : list byte :=
  write16 host (write16 host buf (h_pos h) (h_tag h)) (h_pos h + 2) (h_len h).

Definition host_headers (host : endianness) (hs : list header)
    (buf : list byte) : list byte :=
  foldl (host_header host) buf hs.

(** The four bytes of a header after the write-back: tag and length in
    the byte order of the host. *)
Definition header_bytes (host : endianness) (h : header) : list byte :=
  let '(t0, t1) := store16 host (h_tag h) in
  let '(l0, l1) := store16 host (h_len h) in
  [t0; t1; l0; l1].

(** What [tffs_parse] returns for a stream of headers [hs] read off [buf]. *)
Definition decode_outcome (host : endianness) (buf : list byte)
    (hs : list header) (tbl : list tffs_id) (c : Z) : outcome :=
  match decode_records buf (List.filter is_record hs) tbl c with
  | Some (c', tbl') => Returned c' tbl' (host_headers host hs buf)
  | None => Fault
  end.

(** The members of an entry that [tffs_parse] never assigns. *)
Definition key_of (e : tffs_id) : Z * string := (id e, name e).

(** The number of entries of the table that hold a value ([val] is not
    [NULL]). *)
Definition has_value (e : tffs_id) : bool :=
  match val e with
  | Some _ => true
  | None => false
  end.

Definition count_values (tbl : list tffs_id) : nat :=
  length (List.filter has_value tbl).

(** The buffer sizes for which neither [pos] nor [count] can wrap: a record
    is at most 4 + 65536 bytes long. *)
Definition no_wrap (size : Z) : Prop := size + 65536 <= 2 ^ 32.

(** Two states of the memory that differ below offset [p] only. *)
Definition agree_from (p : Z) (b1 b2 : list byte) : Prop :=
  length b1 = length b2 /\
  forall k : nat, p <= Z.of_nat k -> b1 !! k = b2 !! k.

(** ** Concrete buffers *)

(** Two [productid] records, then the sentinel. *)
Definition two_productid : list byte :=
  [x01; x01; x00; x04; x41; x42; x43; x44;
   x01; x01; x00; x04; x57; x58; x59; x5a;
   xff; xff; x00; x00; xff; xff; xff; xff].

(** One record with tag 0x01A3, the tag of both [usb_device_id] and
    [usb_revision_id], then the sentinel. *)
Definition usb_record : list byte :=
  [x01; xa3; x00; x04; x31; x32; x33; x34;
   xff; xff; x00; x00; xff; xff; xff; xff].

(** One [productid] record, then the sentinel. *)
Definition one_productid : list byte :=
  [x01; x01; x00; x04; x41; x42; x43; x44;
   xff; xff; x00; x00; xff; xff; xff; xff].

(** The sentinel as the first header. *)
Definition only_sentinel : list byte :=
  [xff; xff; x00; x00; xff; xff; xff; xff;
   xff; xff; xff; xff; xff; xff; xff; xff].

(** A [productid] record that declares 8 bytes of payload with 4 bytes of
    the buffer left. *)
Definition overlong_record : list byte :=
  [x01; x01; x00; x08; x41; x42; x43; x44].

(** A record with a tag that is not in the table, then the sentinel with a
    length field of 0x1234. *)
Definition unknown_then_sentinel : list byte :=
  [x00; x01; x00; x02; x68; x69; x00; x00;
   xff; xff; x12; x34; xff; xff; xff; xff].

(** An entry that holds a value holds a copy of the [len] bytes of the
    buffer at [offset], followed by a NUL. *)
Definition value_is_slice (buf : list byte) (e : tffs_id) : Prop :=
  match val e with
  | None => True
  | Some v =>
      v = take (Z.to_nat (len e)) (drop (Z.to_nat (offset e)) buf) ++ [x00] /\
      4 <= offset e /\ (offset e) mod 4 = 0 /\
      0 <= len e < 65536 /\
      offset e + len e <= Z.of_nat (length buf)
  end.

(** ** The caller: [main], once [parse_options] has set the globals *)

Definition EXIT_SUCCESS : Z := 0.
Definition EXIT_FAILURE : Z := 1.

(** What [%s] prints for a [char *]: the bytes before the first NUL. *)
Fixpoint c_string (l : list byte) : list byte :=
  match l with
  | [] => []
  | b :: rest => if Byte.eqb b x00 then [] else b :: c_string rest
  end.

Definition newline : list byte := [x0a].

Definition nl : string := String (Ascii.ascii_of_nat 10) EmptyString.

(** The [for] loop of [main] over the entries still to visit: the bytes it
    writes to stdout and the value of [ret] after it.  [None] is the call
    [strcmp(NULL, ...)] of a run with neither [-a] nor [-n], which
    [parse_options] does not let through. *)
Fixpoint show_values (show_all : bool) (name_filter : option string)
    (tbl : list tffs_id) (ret : Z) : option (list byte * Z) :=
  match tbl with
  | [] => Some ([], ret)
  | e :: rest =>
    match val e with
    | None => show_values show_all name_filter rest ret
    | Some v =>
      if show_all then
        match show_values show_all name_filter rest EXIT_SUCCESS with
        | Some (out, r) =>
          Some (String.list_byte_of_string (name e) ++ [x3d] ++ c_string v ++ newline
                  ++ out, r)
        | None => None
        end
      else
        match name_filter with
        | None => None
        | Some n =>
          if String.eqb n (name e)
          then Some (c_string v ++ newline, EXIT_SUCCESS)
          else show_values show_all name_filter rest ret
        end
    end
  end.

(** How a run of [main] ends: the exit status with what went to stdout and
    stderr and the table as the run leaves it, or undefined behaviour. *)
Inductive run :=
  | Exit (ret : Z) (out : list byte) (err : string) (tbl : list tffs_id)
  | Crash.

(** [main] from the [fopen] on.  [file] is the content of [input_file],
    [None] when it cannot be opened; [fread] fills the [tffs_size] bytes of
    the buffer or the run fails. *)
Definition main (host : endianness) (fuel : nat) (input_file : string)
    (file : option (list byte)) (tffs_size : Z) (show_all : bool)
    (name_filter : option string) (tbl : list tffs_id) : option run :=
  match file with
  | None =>
    Some (Exit EXIT_FAILURE []
            (String.append "ERROR: Failed to open tffs input file "
               (String.append input_file nl)) tbl)
  | Some content =>
    if Z.of_nat (length content) <? tffs_size then
      Some (Exit EXIT_FAILURE []
              (String.append "ERROR: Failed read tffs file "
                 (String.append input_file nl)) tbl)
    else
      match tffs_parse host tffs_size fuel tbl
              (take (Z.to_nat tffs_size) content) with
      | None => None
      | Some Fault => Some Crash
      | Some (Returned c tbl' _) =>
        if c =? 0 then
          Some (Exit EXIT_FAILURE []
                  (String.append "ERROR: No values found in tffs file "
                     (String.append input_file nl)) tbl')
        else
          match show_values show_all name_filter tbl' EXIT_FAILURE with
          | None => Some Crash
          | Some (out, ret) =>
            Some (Exit ret out
                    (match name_filter with
                     | Some n =>
                       if ret =? EXIT_FAILURE then
                         String.append "ERROR: Key '"
                           (String.append n
                              (String.append "' was not found in "
                                 (String.append input_file nl)))
                       else EmptyString
                     | None => EmptyString
                     end) tbl')
          end
      end
  end.

(** The line [-a] prints for an entry that holds a value. *)
Definition show_line (e : tffs_id) : list byte :=
  match val e with
  | Some v =>
    String.list_byte_of_string (name e) ++ [x3d] ++ c_string v ++ newline
  | None => []
  end.

(** A file for the examples: a [productid] record with the payload
    "AB", a NUL, "D", then the sentinel and erased flash. *)
Definition productid_with_nul : list byte :=
  [x01; x01; x00; x04; x41; x42; x00; x44;
   xff; xff; x00; x00; xff; xff; xff; xff;
   xff; xff; xff; xff].

(** ** The layout of a record stream

    What the wire format prescribes for a list of (tag, payload) pairs, to
    state what the scan makes of every buffer that is laid out this way:
    the big-endian tag and length, the payload, and zero bytes up to the
    next multiple of 4. *)

Definition be16_bytes (v : Z) : list byte :=
  [Z_to_byte (v / 256); Z_to_byte (v mod 256)].

Definition layout_record (r : Z * list byte) : list byte :=
  let L := Z.of_nat (length (snd r)) in
  be16_bytes (fst r) ++ be16_bytes L ++ snd r ++
  replicate (Z.to_nat (padded L - L)) x00.

Fixpoint layout (recs : list (Z * list byte)) : list byte :=
  match recs with
  | [] => []
  | r :: rest => layout_record r ++ layout rest
  end.

(** The headers of these records when the first one starts at [p]. *)
Fixpoint headers_of (p : Z) (recs : list (Z * list byte)) : list header :=
  match recs with
  | [] => []
  | r :: rest =>
    let L := Z.of_nat (length (snd r)) in
    mk_header p (fst r) L :: headers_of (p + 4 + padded L) rest
  end.

(** A tag other than the sentinel and a length that fits 16 bits. *)
Definition well_formed_record (r : Z * list byte) : Prop :=
  0 <= fst r < 65535 /\ Z.of_nat (length (snd r)) < 65536.

(** The tag of the record is one of the table's. *)
Definition known (tbl : list tffs_id) (r : Z * list byte) : bool :=
  match tffs_find_id tbl (fst r) with
  | Some _ => true
  | None => false
  end.

(** A header and the record it was laid out from. *)
Definition header_of_record (buf : list byte) (h : header)
    (r : Z * list byte) : Prop :=
  h_tag h = fst r /\ h_len h = Z.of_nat (length (snd r)) /\
  payload buf h = snd r /\ in_bounds buf h = true.

(** ** Bytes and 16-bit fields *)

Lemma byte_to_Z_range b : 0 <= byte_to_Z b < 256.
Proof.
  unfold byte_to_Z. pose proof (Byte.to_N_bounded b). lia.
Qed.

Lemma Z_to_byte_to_Z b : Z_to_byte (byte_to_Z b) = b.
Proof.
  unfold Z_to_byte. pose proof (byte_to_Z_range b).
  rewrite Z.mod_small by lia. unfold byte_to_Z.
  rewrite N2Z.id, Byte.of_to_N. reflexivity.
Qed.

Lemma byte_to_Z_to_byte z : byte_to_Z (Z_to_byte z) = z mod 256.
Proof.
  unfold Z_to_byte, byte_to_Z.
  pose proof (Z.mod_pos_bound z 256 ltac:(lia)) as Hz.
  destruct (Byte.of_N (Z.to_N (z mod 256))) as [b|] eqn:E.
  - apply Byte.to_of_N in E. rewrite E. lia.
  - apply Byte.of_N_None_iff in E. lia.
Qed.

Lemma land_low_shiftl8 lo hi : 0 <= lo < 256 -> Z.land lo (Z.shiftl hi 8) = 0.
Proof.
  intros Hlo. apply Z.bits_inj'. intros n Hn.
  rewrite Z.land_spec, Z.bits_0, Z.shiftl_spec by lia.
  destruct (Z.ltb_spec n 8).
  - rewrite (Z.testbit_neg_r hi) by lia. apply andb_false_r.
  - destruct (Z.eq_dec lo 0) as [->|]; [now rewrite Z.bits_0|].
    rewrite (Z.bits_above_log2 lo n); [reflexivity|lia|].
    apply Z.log2_lt_pow2; [lia|].
    apply Z.lt_le_trans with (2 ^ 8); [lia|].
    apply Z.pow_le_mono_r; lia.
Qed.

Lemma lor_shiftl8 lo hi :
  0 <= lo < 256 -> Z.lor lo (Z.shiftl hi 8) = lo + 256 * hi.
Proof.
  intros Hlo.
  rewrite <- Z.lxor_lor, <- Z.add_nocarry_lxor
    by (apply land_low_shiftl8; assumption).
  rewrite Z.shiftl_mul_pow2 by lia. lia.
Qed.

Lemma land_255 v : Z.land v 255 = v mod 256.
Proof. change 255 with (Z.ones 8). rewrite Z.land_ones by lia. reflexivity. Qed.

Lemma shiftr_8 v : Z.shiftr v 8 = v / 256.
Proof. rewrite Z.shiftr_div_pow2 by lia. reflexivity. Qed.

(** The C expression [(len + 3) & ~0x03] rounds up to a multiple of 4. *)
Lemma land_lnot3 x : Z.land x (Z.lnot 3) = 4 * (x / 4).
Proof.
  rewrite <- Z.ldiff_land. change 3 with (Z.ones 2).
  rewrite Z.ldiff_ones_r by lia.
  rewrite Z.shiftr_div_pow2, Z.shiftl_mul_pow2 by lia.
  change (2 ^ 2) with 4. lia.
Qed.

(** On either host, [ntohs] of the loaded field is the big-endian value of
    its two bytes. *)
Lemma ntohs_load16 host b0 b1 :
  ntohs host (load16 host b0 b1) = 256 * byte_to_Z b0 + byte_to_Z b1.
Proof.
  pose proof (byte_to_Z_range b0). pose proof (byte_to_Z_range b1).
  destruct host; unfold ntohs, load16.
  - unfold bswap16.
    rewrite (lor_shiftl8 (byte_to_Z b0) (byte_to_Z b1)) by lia.
    rewrite !land_255, !shiftr_8.
    replace ((byte_to_Z b0 + 256 * byte_to_Z b1) / 256) with (byte_to_Z b1)
      by (apply Z.div_unique with (byte_to_Z b0); lia).
    replace ((byte_to_Z b0 + 256 * byte_to_Z b1) mod 256) with (byte_to_Z b0)
      by (apply Z.mod_unique with (byte_to_Z b1); lia).
    rewrite Z.mod_small by lia.
    rewrite lor_shiftl8 by lia. lia.
  - rewrite Z.lor_comm, lor_shiftl8 by lia. lia.
Qed.

(** The bytes the write-back leaves: swapped on a little-endian host, as
    they were on a big-endian one. *)
Lemma store16_be_value host b0 b1 :
  store16 host (256 * byte_to_Z b0 + byte_to_Z b1) =
  match host with
  | LittleEndian => (b1, b0)
  | BigEndian => (b0, b1)
  end.
Proof.
  pose proof (byte_to_Z_range b0). pose proof (byte_to_Z_range b1).
  assert ((256 * byte_to_Z b0 + byte_to_Z b1) / 256 = byte_to_Z b0) as Hd
    by (symmetry; apply Z.div_unique with (byte_to_Z b1); lia).
  assert ((256 * byte_to_Z b0 + byte_to_Z b1) mod 256 = byte_to_Z b1) as Hm
    by (symmetry; apply Z.mod_unique with (byte_to_Z b0); lia).
  destruct host; unfold store16;
    rewrite land_255, shiftr_8, Hd, Hm, !Z_to_byte_to_Z; reflexivity.
Qed.

(** ** Memory states that agree from an offset on *)

Lemma agree_from_refl p b : agree_from p b b.
Proof. split; [reflexivity | intros; reflexivity]. Qed.

Lemma agree_from_trans p b1 b2 b3 :
  agree_from p b1 b2 -> agree_from p b2 b3 -> agree_from p b1 b3.
Proof.
  intros [Hl1 H1] [Hl2 H2]. split; [congruence|].
  intros k Hk. rewrite H1, H2 by assumption. reflexivity.
Qed.

Lemma agree_from_weaken p q b1 b2 :
  p <= q -> agree_from p b1 b2 -> agree_from q b1 b2.
Proof. intros Hpq [Hl H]. split; [assumption|]. intros k Hk. apply H. lia. Qed.

Lemma length_write16 host buf p v :
  length (write16 host buf p v) = length buf.
Proof.
  unfold write16. destruct (store16 host v). rewrite !length_insert. reflexivity.
Qed.

Lemma write16_agree host buf p v q :
  0 <= p -> p + 2 <= q -> agree_from q (write16 host buf p v) buf.
Proof.
  intros Hp Hq. split; [apply length_write16|].
  intros k Hk. unfold write16. destruct (store16 host v).
  rewrite !list_lookup_insert_ne by lia. reflexivity.
Qed.

(** A write leaves every byte but the two of the field as it was. *)
Lemma write16_other host buf p v (k : nat) :
  0 <= p -> (Z.of_nat k < p \/ p + 2 <= Z.of_nat k) ->
  write16 host buf p v !! k = buf !! k.
Proof.
  intros Hp Hk. unfold write16. destruct (store16 host v).
  rewrite !list_lookup_insert_ne by lia. reflexivity.
Qed.

Lemma length_host_header host buf h :
  length (host_header host buf h) = length buf.
Proof. unfold host_header. rewrite !length_write16. reflexivity. Qed.

Lemma host_header_agree host buf h q :
  0 <= h_pos h -> h_pos h + 4 <= q -> agree_from q (host_header host buf h) buf.
Proof.
  intros Hp Hq. unfold host_header.
  eapply agree_from_trans; apply write16_agree; lia.
Qed.

Lemma be16_agree p q b1 b2 :
  agree_from p b1 b2 -> p <= q -> be16 b1 q = be16 b2 q.
Proof.
  intros [_ H] Hq. unfold be16. rewrite !H by lia. reflexivity.
Qed.

Lemma be16_range buf p v : be16 buf p = Some v -> 0 <= v < 65536.
Proof.
  unfold be16. destruct (buf !! Z.to_nat p) as [b0|]; [|discriminate].
  destruct (buf !! Z.to_nat (p + 1)) as [b1|]; [|discriminate].
  intros [= <-].
  pose proof (byte_to_Z_range b0). pose proof (byte_to_Z_range b1). lia.
Qed.

Lemma be16_is_Some buf p :
  0 <= p -> p + 2 <= Z.of_nat (length buf) -> is_Some (be16 buf p).
Proof.
  intros Hp Hl. unfold be16.
  destruct (lookup_lt_is_Some_2 buf (Z.to_nat p)) as [b0 ->]; [lia|].
  destruct (lookup_lt_is_Some_2 buf (Z.to_nat (p + 1))) as [b1 ->]; [lia|].
  eexists; reflexivity.
Qed.

Lemma read16_be16 host buf p :
  0 <= p -> ntohs host <$> read16 host buf p = be16 buf p.
Proof.
  intros Hp. unfold read16, be16.
  destruct (Z.ltb_spec p 0); [lia|].
  destruct (buf !! Z.to_nat p) as [b0|]; [|reflexivity].
  destruct (buf !! Z.to_nat (p + 1)) as [b1|]; [|reflexivity].
  simpl. rewrite ntohs_load16. reflexivity.
Qed.

Lemma payload_agree p b1 b2 h :
  agree_from p b1 b2 -> p <= payload_pos h -> payload b1 h = payload b2 h.
Proof.
  intros [_ H] Hp. unfold payload. apply list_eq. intros i.
  destruct (decide (i < Z.to_nat (h_len h))%nat).
  - rewrite !lookup_take_lt, !lookup_drop by assumption. apply H. lia.
  - rewrite !lookup_take_ge by lia. reflexivity.
Qed.

Lemma in_bounds_agree p b1 b2 h :
  agree_from p b1 b2 -> in_bounds b1 h = in_bounds b2 h.
Proof. intros [Hl _]. unfold in_bounds. rewrite Hl. reflexivity. Qed.

Lemma memcpy_src_payload buf h :
  0 <= h_pos h ->
  memcpy_src buf (payload_pos h) (h_len h) =
  if in_bounds buf h then Some (payload buf h) else None.
Proof.
  intros Hp. unfold memcpy_src, in_bounds, payload, payload_pos in *.
  destruct (Z.leb_spec 0 (h_pos h + 4)); [|lia]. reflexivity.
Qed.

(** ** The stream of headers *)

Lemma padded_bounds L : 0 <= L -> L <= padded L < L + 4.
Proof.
  intros HL. unfold padded.
  pose proof (Z.div_mod (L + 3) 4 ltac:(lia)).
  pose proof (Z.mod_pos_bound (L + 3) 4 ltac:(lia)). lia.
Qed.

Lemma padded_le_65536 L : 0 <= L < 65536 -> 0 <= padded L <= 65536.
Proof.
  intros HL. unfold padded.
  pose proof (Z.div_mod (L + 3) 4 ltac:(lia)).
  pose proof (Z.mod_pos_bound (L + 3) 4 ltac:(lia)). lia.
Qed.

Lemma headers_from_agree size b1 b2 p :
  agree_from p b1 b2 ->
  forall fuel q, p <= q ->
  headers_from fuel size b1 q = headers_from fuel size b2 q.
Proof.
  intros Hag. induction fuel as [|fuel IH]; intros q Hq; [reflexivity|].
  simpl. destruct (q + 4 <? size); [|reflexivity].
  rewrite (be16_agree p q b1 b2), (be16_agree p (q + 2) b1 b2) by (assumption || lia).
  destruct (be16 b2 q) as [tag|] eqn:Etag; [|reflexivity].
  destruct (be16 b2 (q + 2)) as [L|] eqn:EL; [|reflexivity].
  destruct (tag =? sentinel); [reflexivity|].
  rewrite IH; [reflexivity|].
  apply be16_range in EL. pose proof (padded_bounds L). lia.
Qed.

(** Every header lies at or after the start of its stream, with more than
    four bytes of the buffer from its offset on. *)
Lemma headers_from_pos size buf :
  forall fuel p,
  Forall (fun h => p <= h_pos h /\ h_pos h + 4 < size)
         (headers_from fuel size buf p).
Proof.
  induction fuel as [|fuel IH]; intros p; simpl; [constructor|].
  destruct (Z.ltb_spec (p + 4) size); [|constructor].
  destruct (be16 buf p) as [tag|] eqn:Etag; [|constructor].
  destruct (be16 buf (p + 2)) as [L|] eqn:EL; [|constructor].
  constructor; [simpl; lia|].
  destruct (tag =? sentinel); [constructor|].
  eapply Forall_impl; [apply IH|]. simpl. intros h [H1 H2].
  apply be16_range in EL. pose proof (padded_bounds L). lia.
Qed.

(** More fuel than the bytes left does not change the stream. *)
Lemma headers_from_fuel size buf :
  forall f1 f2 p,
  0 <= p ->
  (Z.to_nat (size - p) < f1)%nat -> (Z.to_nat (size - p) < f2)%nat ->
  headers_from f1 size buf p = headers_from f2 size buf p.
Proof.
  induction f1 as [|f1 IH]; intros f2 p Hp H1 H2; [lia|].
  destruct f2 as [|f2]; [lia|]. simpl.
  destruct (Z.ltb_spec (p + 4) size); [|reflexivity].
  destruct (be16 buf p) as [tag|] eqn:Etag; [|reflexivity].
  destruct (be16 buf (p + 2)) as [L|] eqn:EL; [|reflexivity].
  destruct (tag =? sentinel); [reflexivity|].
  apply be16_range in EL. pose proof (padded_bounds L).
  rewrite (IH f2) by lia. reflexivity.
Qed.

Lemma decode_records_agree p b1 b2 hs :
  agree_from p b1 b2 ->
  Forall (fun h => p <= payload_pos h) hs ->
  forall tbl c, decode_records b1 hs tbl c = decode_records b2 hs tbl c.
Proof.
  intros Hag. induction 1 as [|h hs Hh Hhs IH]; intros tbl c; [reflexivity|].
  simpl. destruct (tffs_find_id tbl (h_tag h)); [|apply IH].
  rewrite (in_bounds_agree p b1 b2 h), (payload_agree p b1 b2 h) by assumption.
  destruct (in_bounds b2 h); [apply IH|reflexivity].
Qed.

(** ** One run of the loop body, in terms of the wire format *)

Lemma tffs_body_header host st tag L :
  0 <= pos st -> pos st + 4 + 65536 < 2 ^ 32 ->
  be16 (buffer st) (pos st) = Some tag ->
  be16 (buffer st) (pos st + 2) = Some L ->
  let h := mk_header (pos st) tag L in
  let buf2 := host_header host (buffer st) h in
  tffs_body host st =
    if tag =? sentinel then Stop (Returned (count st) (table st) buf2)
    else
      match tffs_find_id (table st) tag with
      | Some i =>
        if in_bounds (buffer st) h then
          Continue {| buffer := buf2;
                      table := alter (store_value (payload_pos h) L
                                        (payload (buffer st) h)) i (table st);
                      pos := pos st + 4 + padded L;
                      count := wrap32 (count st + 1) |}
        else Stop Fault
      | None =>
        Continue {| buffer := buf2; table := table st;
                    pos := pos st + 4 + padded L; count := count st |}
      end.
Proof.
  intros Hp Hmax Htag HL h buf2. unfold tffs_body.
  pose proof (read16_be16 host (buffer st) (pos st) Hp) as Hr.
  rewrite Htag in Hr.
  destruct (read16 host (buffer st) (pos st)) as [raw_id|]; [|discriminate].
  simpl in Hr. injection Hr as Hr. rewrite Hr.
  pose proof (read16_be16 host (write16 host (buffer st) (pos st) tag)
                (pos st + 2) ltac:(lia)) as Hr2.
  rewrite (be16_agree (pos st + 2) (pos st + 2) _ (buffer st)) in Hr2
    by (try apply write16_agree; lia).
  rewrite HL in Hr2.
  destruct (read16 host (write16 host (buffer st) (pos st) tag) (pos st + 2))
    as [raw_len|]; [|discriminate].
  simpl in Hr2. injection Hr2 as Hr2. rewrite Hr2.
  change (write16 host (write16 host (buffer st) (pos st) tag) (pos st + 2) L)
    with buf2.
  change 0xffff with sentinel.
  destruct (tag =? sentinel); [reflexivity|].
  pose proof (be16_range _ _ _ HL) as HLr.
  pose proof (padded_le_65536 L HLr) as Hpad.
  assert (wrap32 (pos st + 4) = pos st + 4) as ->
    by (unfold wrap32; apply Z.mod_small; lia).
  rewrite land_lnot3. fold (padded L).
  assert (wrap32 (pos st + 4 + padded L) = pos st + 4 + padded L) as ->
    by (unfold wrap32; apply Z.mod_small; lia).
  destruct (tffs_find_id (table st) tag) as [i|]; [|reflexivity].
  change (pos st + 4) with (payload_pos h).
  change L with (h_len h) at 1.
  rewrite memcpy_src_payload by (simpl; assumption).
  assert (agree_from (payload_pos h) buf2 (buffer st)) as Hag
    by (apply host_header_agree; unfold payload_pos; simpl; lia).
  rewrite (in_bounds_agree _ _ _ h Hag).
  rewrite (payload_agree _ _ _ h Hag) by lia.
  destruct (in_bounds (buffer st) h); reflexivity.
Qed.

(** ** The loop against the record stream *)

Lemma tffs_loop_decode host size :
  no_wrap size ->
  forall fuel st,
  0 <= pos st < 2 ^ 32 -> 4 * count st <= pos st -> 0 <= count st ->
  size <= Z.of_nat (length (buffer st)) ->
  (Z.to_nat (size - pos st) < fuel)%nat ->
  tffs_loop host size fuel st =
  Some (decode_outcome host (buffer st)
          (headers_from fuel size (buffer st) (pos st)) (table st) (count st)).
Proof.
  intros Hnw. unfold no_wrap in Hnw.
  induction fuel as [|fuel IH]; intros st Hp Hc Hc0 Hlen Hfuel; [lia|].
  simpl.
  assert (wrap64 (pos st + 4) = pos st + 4) as ->
    by (unfold wrap64; apply Z.mod_small; lia).
  destruct (Z.ltb_spec (pos st + 4) size) as [Hlt|Hge]; [|reflexivity].
  destruct (be16_is_Some (buffer st) (pos st)) as [tag Htag]; [lia|lia|].
  destruct (be16_is_Some (buffer st) (pos st + 2)) as [L HL]; [lia|lia|].
  rewrite (tffs_body_header host st tag L) by (assumption || lia).
  rewrite Htag, HL.
  set (h := mk_header (pos st) tag L).
  unfold decode_outcome at 1. simpl List.filter.
  unfold is_record at 1. simpl h_tag.
  destruct (tag =? sentinel) eqn:Esent; [reflexivity|].
  simpl negb. cbv iota. simpl decode_records.
  pose proof (be16_range _ _ _ HL) as HLr.
  pose proof (padded_le_65536 L HLr) as Hpad.
  assert (agree_from (pos st + 4) (host_header host (buffer st) h) (buffer st))
    as Hag by (apply host_header_agree; simpl; lia).
  assert (forall tbl c,
    decode_outcome host (host_header host (buffer st) h)
      (headers_from fuel size (host_header host (buffer st) h)
         (pos st + 4 + padded L)) tbl c =
    match decode_records (buffer st)
            (List.filter is_record
               (headers_from fuel size (buffer st) (pos st + 4 + padded L)))
            tbl c with
    | Some (c', tbl') =>
        Returned c' tbl'
          (host_headers host
             (h :: headers_from fuel size (buffer st) (pos st + 4 + padded L))
             (buffer st))
    | None => Fault
    end) as Hnext.
  { intros tbl c. unfold decode_outcome.
    rewrite (headers_from_agree size _ _ _ Hag) by lia.
    rewrite (decode_records_agree (pos st + 4) _ (buffer st)); [reflexivity|assumption|].
    apply Forall_forall. intros x Hx.
    apply list_elem_of_In, filter_In in Hx. destruct Hx as [Hx _].
    apply list_elem_of_In in Hx.
    pose proof (headers_from_pos size (buffer st) fuel (pos st + 4 + padded L)) as Hall.
    rewrite Forall_forall in Hall. specialize (Hall x Hx).
    unfold payload_pos. lia. }
  destruct (tffs_find_id (table st) tag) as [i|].
  - destruct (in_bounds (buffer st) h); [|reflexivity].
    assert (wrap32 (count st + 1) = count st + 1) as ->
      by (unfold wrap32; apply Z.mod_small; lia).
    rewrite IH; simpl; rewrite ?length_host_header; try lia.
    rewrite Hnext. reflexivity.
  - rewrite IH; simpl; rewrite ?length_host_header; try lia.
    rewrite Hnext. reflexivity.
Qed.

(** [tffs_parse] on a buffer of [tffs_size] bytes at least: the outcome is
    the one the record stream determines. *)
Lemma tffs_parse_decode host size fuel tbl buf :
  no_wrap size ->
  size <= Z.of_nat (length buf) ->
  (Z.to_nat size < fuel)%nat ->
  tffs_parse host size fuel tbl buf =
  Some (decode_outcome host buf (wire_headers size buf) tbl 0).
Proof.
  intros Hnw Hlen Hfuel. unfold tffs_parse, wire_headers.
  rewrite tffs_loop_decode; simpl; try (assumption || lia).
  rewrite (headers_from_fuel size buf fuel (S (Z.to_nat size)) 0);
    [reflexivity|lia|rewrite Z.sub_0_r; lia|rewrite Z.sub_0_r; lia].
Qed.

(** ** The lookup in the key table *)

Lemma tffs_find_from_Some tbl : forall k tag i,
  tffs_find_from tbl k tag = Some i ->
  (k <= i)%nat /\
  (exists e, tbl !! (i - k)%nat = Some e /\ id e = wrap32 tag) /\
  (forall j e', (j < i - k)%nat -> tbl !! j = Some e' -> id e' <> wrap32 tag).
Proof.
  induction tbl as [|e tbl IH]; intros k tag i; simpl; [discriminate|].
  destruct (Z.eqb_spec (wrap32 tag) (id e)) as [Heq|Hne].
  - intros [= <-]. rewrite Nat.sub_diag. split; [lia|]. split.
    + exists e. split; [reflexivity|congruence].
    + intros j e' Hj. lia.
  - intros Hf. apply IH in Hf as (Hk & (e0 & He0 & Hid) & Hfirst).
    split; [lia|]. replace (i - k)%nat with (S (i - S k)) by lia. split.
    + exists e0. split; assumption.
    + intros [|j] e' Hj; simpl.
      * intros [= <-]. congruence.
      * apply Hfirst. lia.
Qed.

Lemma tffs_find_from_None tbl : forall k tag,
  tffs_find_from tbl k tag = None ->
  forall j e', tbl !! j = Some e' -> id e' <> wrap32 tag.
Proof.
  induction tbl as [|e tbl IH]; intros k tag; simpl.
  - intros _ j e'. rewrite lookup_nil. discriminate.
  - destruct (Z.eqb_spec (wrap32 tag) (id e)) as [Heq|Hne]; [discriminate|].
    intros Hf [|j] e'; simpl.
    + intros [= <-]. congruence.
    + eapply IH. eassumption.
Qed.

(** The lookup reads the [id] members only. *)
Lemma tffs_find_from_ids tbl1 : forall tbl2 k tag,
  id <$> tbl1 = id <$> tbl2 ->
  tffs_find_from tbl1 k tag = tffs_find_from tbl2 k tag.
Proof.
  induction tbl1 as [|e1 tbl1 IH]; intros [|e2 tbl2] k tag; simpl;
    try discriminate; [reflexivity|].
  intros [= Hid Htl]. rewrite Hid.
  destruct (wrap32 tag =? id e2); [reflexivity|]. apply IH. assumption.
Qed.

Lemma tffs_find_id_ids tbl1 tbl2 tag :
  id <$> tbl1 = id <$> tbl2 -> tffs_find_id tbl1 tag = tffs_find_id tbl2 tag.
Proof. apply tffs_find_from_ids. Qed.

Lemma wrap32_u16 tag : 0 <= tag < 65536 -> wrap32 tag = tag.
Proof. intros H. unfold wrap32. apply Z.mod_small. lia. Qed.

(** Two 16-bit tags that are found at the same entry are the same tag. *)
Lemma tffs_find_id_inj tbl t1 t2 i :
  0 <= t1 < 65536 -> 0 <= t2 < 65536 ->
  tffs_find_id tbl t1 = Some i -> tffs_find_id tbl t2 = Some i -> t1 = t2.
Proof.
  intros H1 H2 F1 F2.
  apply tffs_find_from_Some in F1 as (_ & (e1 & He1 & Hid1) & _).
  apply tffs_find_from_Some in F2 as (_ & (e2 & He2 & Hid2) & _).
  rewrite wrap32_u16 in Hid1, Hid2 by assumption. congruence.
Qed.

(** C7. For every 16-bit tag, [tffs_find_id] returns the first entry of the
    table, in declaration order, whose [id] equals the tag, and [NULL]
    ([None]) when no entry has it; the lookup is a function of the table and
    the tag alone and leaves the table as it is. *)
Theorem tffs_find_id_first_match (tbl : list tffs_id) (tag : Z) :
  0 <= tag < 65536 ->
  match tffs_find_id tbl tag with
  | Some i =>
      (exists e, tbl !! i = Some e /\ id e = tag) /\
      (forall j e', (j < i)%nat -> tbl !! j = Some e' -> id e' <> tag)
  | None => forall j e', tbl !! j = Some e' -> id e' <> tag
  end.
Proof.
  intros Htag. unfold tffs_find_id.
  destruct (tffs_find_from tbl 0 tag) as [i|] eqn:E.
  - apply tffs_find_from_Some in E as (_ & Hi & Hfirst).
    rewrite Nat.sub_0_r in Hi. rewrite wrap32_u16 in Hi by assumption.
    split; [assumption|]. intros j e' Hj Hl Hid.
    apply (Hfirst j e'); [lia|assumption|].
    rewrite wrap32_u16 by assumption. assumption.
  - intros j e' Hj Hid.
    apply (tffs_find_from_None _ _ _ E j e' Hj).
    rewrite wrap32_u16 by assumption. assumption.
Qed.

Lemma tffs_find_id_first_match_witness :
  0 <= 0x01A3 < 65536 /\
  tffs_find_id ids 0x01A3 = Some 13%nat /\
  (exists e, ids !! 13%nat = Some e /\ id e = 0x01A3) /\
  (forall j e', (j < 13)%nat -> ids !! j = Some e' -> id e' <> 0x01A3).
Proof.
  split; [lia|]. split; [reflexivity|].
  exact (tffs_find_id_first_match ids 0x01A3 ltac:(lia)).
Defined.

(** ** What the records do to the table *)

Lemma store_value_key p n pl e : key_of (store_value p n pl e) = key_of e.
Proof. reflexivity. Qed.

Lemma store_value_same_key p n pl e1 e2 :
  key_of e1 = key_of e2 -> store_value p n pl e1 = store_value p n pl e2.
Proof. unfold key_of, store_value. intros [= -> ->]. reflexivity. Qed.

Lemma alter_store_value_keys p n pl (i : nat) (tbl : list tffs_id) :
  key_of <$> alter (store_value p n pl) i tbl = key_of <$> tbl.
Proof.
  revert i. induction tbl as [|e tbl IH]; intros [|i]; simpl; try reflexivity.
  f_equal. apply IH.
Qed.

Lemma keys_ids (tbl1 tbl2 : list tffs_id) :
  key_of <$> tbl1 = key_of <$> tbl2 -> id <$> tbl1 = id <$> tbl2.
Proof.
  intros H. apply (f_equal (fmap fst)) in H.
  rewrite <- !list_fmap_compose in H. exact H.
Qed.

Lemma tffs_find_id_alter p n pl (i : nat) (tbl : list tffs_id) tag :
  tffs_find_id (alter (store_value p n pl) i tbl) tag = tffs_find_id tbl tag.
Proof. apply tffs_find_id_ids, keys_ids, alter_store_value_keys. Qed.

Lemma decode_records_app buf hs1 : forall hs2 tbl c,
  decode_records buf (hs1 ++ hs2) tbl c =
  match decode_records buf hs1 tbl c with
  | Some (c1, t1) => decode_records buf hs2 t1 c1
  | None => None
  end.
Proof.
  induction hs1 as [|h hs1 IH]; intros hs2 tbl c; simpl; [reflexivity|].
  destruct (tffs_find_id tbl (h_tag h)); [|apply IH].
  destruct (in_bounds buf h); [apply IH|reflexivity].
Qed.

Lemma decode_records_keys buf hs : forall tbl c c' tbl',
  decode_records buf hs tbl c = Some (c', tbl') ->
  key_of <$> tbl' = key_of <$> tbl.
Proof.
  induction hs as [|h hs IH]; intros tbl c c' tbl'; simpl.
  - intros [= _ <-]. reflexivity.
  - destruct (tffs_find_id tbl (h_tag h)) as [i|]; [|apply IH].
    destruct (in_bounds buf h); [|discriminate].
    intros Hd. apply IH in Hd. rewrite Hd. apply alter_store_value_keys.
Qed.

Lemma decode_records_find buf hs tbl c c' tbl' tag :
  decode_records buf hs tbl c = Some (c', tbl') ->
  tffs_find_id tbl' tag = tffs_find_id tbl tag.
Proof.
  intros Hd. eapply tffs_find_id_ids, keys_ids, decode_records_keys, Hd.
Qed.

(** The count grows by one for every record with a registered tag. *)
Lemma decode_records_count buf hs : forall tbl c c' tbl',
  decode_records buf hs tbl c = Some (c', tbl') ->
  c' = c + Z.of_nat (length (List.filter (registered tbl) hs)).
Proof.
  induction hs as [|h hs IH]; intros tbl c c' tbl'; simpl.
  - intros [= <- _]. lia.
  - unfold registered at 1.
    destruct (tffs_find_id tbl (h_tag h)) as [i|] eqn:Ef; [|apply IH].
    destruct (in_bounds buf h); [|discriminate].
    intros Hd. apply IH in Hd. rewrite Hd. simpl length.
    rewrite (List.filter_ext (registered (alter _ i tbl)) (registered tbl)).
    + lia.
    + intros x. unfold registered. rewrite tffs_find_id_alter. reflexivity.
Qed.

(** The scan completes when the payload window of every record with a
    registered tag lies inside the memory, and only then. *)
Lemma decode_records_is_Some buf hs : forall tbl c,
  Forall (fun h => registered tbl h = true -> in_bounds buf h = true) hs ->
  is_Some (decode_records buf hs tbl c).
Proof.
  induction hs as [|h hs IH]; intros tbl c Hall; simpl; [eexists; reflexivity|].
  apply Forall_cons in Hall as [Hh Hall]. unfold registered in Hh at 1.
  destruct (tffs_find_id tbl (h_tag h)) as [i|]; [|apply IH; assumption].
  rewrite Hh by reflexivity. apply IH.
  eapply Forall_impl; [exact Hall|]. intros x Hx.
  unfold registered in *. rewrite tffs_find_id_alter. exact Hx.
Qed.

Lemma decode_records_None buf pre h post tbl c :
  registered tbl h = true -> in_bounds buf h = false ->
  decode_records buf (pre ++ h :: post) tbl c = None.
Proof.
  intros Hreg Hout. rewrite decode_records_app.
  destruct (decode_records buf pre tbl c) as [[c1 t1]|] eqn:Hd; [|reflexivity].
  simpl. unfold registered in Hreg.
  rewrite (decode_records_find _ _ _ _ _ _ (h_tag h) Hd).
  destruct (tffs_find_id tbl (h_tag h)); [|discriminate].
  rewrite Hout. reflexivity.
Qed.

(** An entry that no record resolves to is left as it was. *)
Lemma decode_records_untouched buf hs i : forall tbl c c' tbl',
  decode_records buf hs tbl c = Some (c', tbl') ->
  Forall (fun h => tffs_find_id tbl (h_tag h) <> Some i) hs ->
  tbl' !! i = tbl !! i.
Proof.
  induction hs as [|h hs IH]; intros tbl c c' tbl'; simpl.
  - intros [= _ <-] _. reflexivity.
  - intros Hd Hall. apply Forall_cons in Hall as [Hh Hall].
    destruct (tffs_find_id tbl (h_tag h)) as [k|] eqn:Ef.
    + destruct (in_bounds buf h); [|discriminate].
      apply IH in Hd.
      * rewrite Hd. apply list_lookup_alter_ne. congruence.
      * eapply Forall_impl; [exact Hall|]. intros x Hx.
        rewrite tffs_find_id_alter. exact Hx.
    + eapply IH; eassumption.
Qed.

(** The entry a record resolves to holds what the last such record
    stored. *)
Lemma decode_records_last buf pre r post tbl c c' tbl' i e :
  decode_records buf (pre ++ r :: post) tbl c = Some (c', tbl') ->
  tffs_find_id tbl (h_tag r) = Some i ->
  tbl !! i = Some e ->
  Forall (fun h => tffs_find_id tbl (h_tag h) <> Some i) post ->
  in_bounds buf r = true /\
  tbl' !! i = Some (store_value (payload_pos r) (h_len r) (payload buf r) e).
Proof.
  intros Hd Hf He Hpost. rewrite decode_records_app in Hd.
  destruct (decode_records buf pre tbl c) as [[c1 t1]|] eqn:Hpre; [|discriminate].
  simpl in Hd.
  rewrite (decode_records_find _ _ _ _ _ _ (h_tag r) Hpre), Hf in Hd.
  destruct (in_bounds buf r); [|discriminate]. split; [reflexivity|].
  pose proof (decode_records_keys _ _ _ _ _ _ Hpre) as Hk.
  apply (f_equal (fun l => l !! i)) in Hk.
  rewrite !list_lookup_fmap, He in Hk.
  destruct (t1 !! i) as [e1|] eqn:He1; [|discriminate]. simpl in Hk.
  injection Hk as Hk1 Hk2.
  apply decode_records_untouched with (i := i) in Hd.
  - rewrite Hd, list_lookup_alter_eq, He1. simpl. f_equal.
    apply store_value_same_key. unfold key_of. congruence.
  - eapply Forall_impl; [exact Hpost|]. intros x Hx.
    rewrite tffs_find_id_alter.
    rewrite (decode_records_find _ _ _ _ _ _ (h_tag x) Hpre). exact Hx.
Qed.

Lemma count_values_alter p n pl (i : nat) (tbl : list tffs_id) :
  (count_values (alter (store_value p n pl) i tbl) <= S (count_values tbl))%nat.
Proof.
  unfold count_values. revert i.
  induction tbl as [|e tbl IH]; intros [|i]; simpl; try lia.
  - destruct (has_value e); simpl; lia.
  - specialize (IH i). change (alter ?f i tbl) with (list_alter f i tbl) in IH.
    destruct (has_value e); simpl; lia.
Qed.

Lemma decode_records_values buf hs : forall tbl c c' tbl',
  decode_records buf hs tbl c = Some (c', tbl') ->
  Z.of_nat (count_values tbl') <= Z.of_nat (count_values tbl) + (c' - c).
Proof.
  induction hs as [|h hs IH]; intros tbl c c' tbl'; simpl.
  - intros [= <- <-]. lia.
  - destruct (tffs_find_id tbl (h_tag h)) as [i|]; [|apply IH].
    destruct (in_bounds buf h); [|discriminate].
    intros Hd. apply IH in Hd.
    pose proof (count_values_alter (payload_pos h) (h_len h) (payload buf h) i tbl).
    lia.
Qed.

Lemma headers_from_range size buf : forall fuel p,
  Forall (fun h => 0 <= h_tag h < 65536 /\ 0 <= h_len h < 65536)
         (headers_from fuel size buf p).
Proof.
  induction fuel as [|fuel IH]; intros p; simpl; [constructor|].
  destruct (p + 4 <? size); [|constructor].
  destruct (be16 buf p) as [tag|] eqn:Etag; [|constructor].
  destruct (be16 buf (p + 2)) as [L|] eqn:EL; [|constructor].
  apply be16_range in Etag, EL.
  constructor; [simpl; lia|].
  destruct (tag =? sentinel); [constructor|apply IH].
Qed.

Lemma wire_records_range size buf :
  Forall (fun h => 0 <= h_tag h < 65536 /\ 0 <= h_len h < 65536)
         (wire_records size buf).
Proof.
  unfold wire_records, wire_headers. apply Forall_forall. intros h Hh.
  apply list_elem_of_In, filter_In in Hh as [Hh _].
  pose proof (headers_from_range size buf (S (Z.to_nat size)) 0) as Hall.
  rewrite Forall_forall in Hall. apply Hall, list_elem_of_In, Hh.
Qed.

(** The two ways a call can end, in terms of the records of the buffer. *)
Lemma tffs_parse_cases host size fuel tbl buf :
  no_wrap size ->
  size <= Z.of_nat (length buf) ->
  (Z.to_nat size < fuel)%nat ->
  (decode_records buf (wire_records size buf) tbl 0 = None /\
   tffs_parse host size fuel tbl buf = Some Fault) \/
  (exists c tbl',
     decode_records buf (wire_records size buf) tbl 0 = Some (c, tbl') /\
     tffs_parse host size fuel tbl buf =
       Some (Returned c tbl' (host_headers host (wire_headers size buf) buf))).
Proof.
  intros Hnw Hlen Hfuel.
  rewrite (tffs_parse_decode host size fuel tbl buf Hnw Hlen Hfuel).
  unfold decode_outcome, wire_records.
  destruct (decode_records buf (List.filter is_record (wire_headers size buf)) tbl 0)
    as [[c tbl']|].
  - right. exists c, tbl'. split; reflexivity.
  - left. split; reflexivity.
Qed.

(** The call returns when every record with a registered tag has its
    payload window inside the memory. *)
Lemma tffs_parse_returns host size fuel tbl buf :
  no_wrap size ->
  size <= Z.of_nat (length buf) ->
  (Z.to_nat size < fuel)%nat ->
  Forall (fun h => registered tbl h = true -> in_bounds buf h = true)
         (wire_records size buf) ->
  exists c tbl',
    decode_records buf (wire_records size buf) tbl 0 = Some (c, tbl') /\
    tffs_parse host size fuel tbl buf =
      Some (Returned c tbl' (host_headers host (wire_headers size buf) buf)).
Proof.
  intros Hnw Hlen Hfuel Hall.
  destruct (tffs_parse_cases host size fuel tbl buf Hnw Hlen Hfuel)
    as [[Hnone _]|Hsome]; [|exact Hsome].
  destruct (decode_records_is_Some buf _ tbl 0 Hall) as [x Hx]. congruence.
Qed.

(** ** The count *)

(** C2, as the code has it. The count [tffs_parse] returns is the number of
    records of the buffer whose tag is in the table: every such record adds
    one, a second record with the same tag adds one more.  The number of
    entries that hold a value after the scan is at most the number they held
    before plus the count. *)
Theorem count_is_number_of_registered_records
    host size fuel tbl buf :
  no_wrap size ->
  size <= Z.of_nat (length buf) ->
  (Z.to_nat size < fuel)%nat ->
  tffs_parse host size fuel tbl buf = Some Fault \/
  exists tbl' buf',
    tffs_parse host size fuel tbl buf =
      Some (Returned
              (Z.of_nat (length (List.filter (registered tbl)
                                   (wire_records size buf))))
              tbl' buf') /\
    (count_values tbl' <=
     count_values tbl +
     length (List.filter (registered tbl) (wire_records size buf)))%nat.
Proof.
  intros Hnw Hlen Hfuel.
  destruct (tffs_parse_cases host size fuel tbl buf Hnw Hlen Hfuel)
    as [[_ Hf]|(c & tbl' & Hd & Hp)]; [left; exact Hf|right].
  pose proof (decode_records_count _ _ _ _ _ _ Hd) as Hc.
  pose proof (decode_records_values _ _ _ _ _ _ Hd) as Hv.
  exists tbl', (host_headers host (wire_headers size buf) buf).
  rewrite Hp. split; [repeat f_equal; lia|lia].
Qed.

Lemma count_is_number_of_registered_records_witness :
  no_wrap 24 /\ 24 <= Z.of_nat (length two_productid) /\
  (Z.to_nat 24 < 25)%nat /\
  (tffs_parse LittleEndian 24 25 ids two_productid = Some Fault \/
   exists tbl' buf',
     tffs_parse LittleEndian 24 25 ids two_productid =
       Some (Returned
               (Z.of_nat (length (List.filter (registered ids)
                                    (wire_records 24 two_productid))))
               tbl' buf') /\
     (count_values tbl' <=
      count_values ids +
      length (List.filter (registered ids) (wire_records 24 two_productid)))%nat).
Proof.
  assert (no_wrap 24) as Hnw by (unfold no_wrap; lia).
  assert (24 <= Z.of_nat (length two_productid)) as Hlen by (simpl; lia).
  assert (Z.to_nat 24 < 25)%nat as Hfuel by (simpl; lia).
  repeat split; try assumption.
  exact (count_is_number_of_registered_records
           LittleEndian 24 25 ids two_productid Hnw Hlen Hfuel).
Defined.

(** C2, as stated, fails: two records with the tag of [productid] make the
    count 2 while one entry of the table holds a value. *)
Lemma count_exceeds_distinct_entries :
  exists tbl' buf',
    tffs_parse LittleEndian 24 25 ids two_productid =
      Some (Returned 2 tbl' buf') /\
    count_values tbl' = 1%nat /\
    2 <> Z.of_nat (count_values tbl').
Proof.
  eexists _, _. split; [vm_compute; reflexivity|].
  split; [reflexivity|vm_compute; discriminate].
Qed.

(** ** Which record and which entry a value comes from *)

Lemma not_found_at_other_tag tbl i t (hs : list header) :
  0 <= t < 65536 ->
  tffs_find_id tbl t = Some i ->
  Forall (fun h => 0 <= h_tag h < 65536 /\ 0 <= h_len h < 65536) hs ->
  Forall (fun h => h_tag h <> t) hs ->
  Forall (fun h => tffs_find_id tbl (h_tag h) <> Some i) hs.
Proof.
  intros Ht Hf Hr Hne. rewrite Forall_forall in *. intros h Hh Hfh.
  apply (Hne h Hh).
  eapply tffs_find_id_inj; [apply (Hr h Hh)|exact Ht|exact Hfh|exact Hf].
Qed.

(** C3. When the buffer holds two records with the same registered tag,
    all payload windows inside the buffer, and the second is the last
    record with that tag, the entry of the tag holds the second record's
    payload after the scan (followed by the terminating NUL), with its
    length and offset: the later match overwrote the earlier one. *)
Theorem last_record_wins
    host size fuel tbl buf pre r1 mid r2 post i :
  no_wrap size ->
  size <= Z.of_nat (length buf) ->
  (Z.to_nat size < fuel)%nat ->
  wire_records size buf = pre ++ r1 :: mid ++ r2 :: post ->
  h_tag r1 = h_tag r2 ->
  tffs_find_id tbl (h_tag r2) = Some i ->
  Forall (fun h => h_tag h <> h_tag r2) post ->
  Forall (fun h => registered tbl h = true -> in_bounds buf h = true)
         (wire_records size buf) ->
  exists c tbl' buf' e e',
    tffs_parse host size fuel tbl buf = Some (Returned c tbl' buf') /\
    tbl !! i = Some e /\ tbl' !! i = Some e' /\
    name e' = name e /\
    val e' = Some (payload buf r2 ++ [x00]) /\
    len e' = h_len r2 /\
    offset e' = payload_pos r2.
Proof.
  intros Hnw Hlen Hfuel Hrec Htag Hfind Hpost Hall.
  destruct (tffs_parse_returns host size fuel tbl buf Hnw Hlen Hfuel Hall)
    as (c & tbl' & Hd & Hp).
  pose proof (wire_records_range size buf) as Hrange.
  rewrite Hrec in Hd, Hrange.
  replace (pre ++ r1 :: mid ++ r2 :: post)
    with ((pre ++ r1 :: mid) ++ r2 :: post) in Hd, Hrange
    by (rewrite <- app_assoc; reflexivity).
  apply Forall_app in Hrange as [_ Hrange].
  apply Forall_cons in Hrange as [Hr2 Hrange].
  pose proof (tffs_find_from_Some _ _ _ _ Hfind) as (_ & (e & He & _) & _).
  rewrite Nat.sub_0_r in He.
  destruct (decode_records_last buf _ r2 post tbl 0 c tbl' i e Hd Hfind He)
    as [_ Hi].
  { eapply not_found_at_other_tag; [exact (proj1 Hr2)|exact Hfind|exact Hrange|exact Hpost]. }
  exists c, tbl', (host_headers host (wire_headers size buf) buf), e,
    (store_value (payload_pos r2) (h_len r2) (payload buf r2) e).
  repeat split; assumption.
Qed.

Lemma last_record_wins_witness :
  exists c tbl' buf' e e',
    tffs_parse LittleEndian 24 25 ids two_productid =
      Some (Returned c tbl' buf') /\
    ids !! 1%nat = Some e /\ tbl' !! 1%nat = Some e' /\
    name e' = name e /\
    val e' = Some ([x57; x58; x59; x5a] ++ [x00]) /\
    len e' = 4 /\
    offset e' = 12.
Proof.
  apply (last_record_wins LittleEndian 24 25 ids two_productid
           [] (mk_header 0 0x0101 4) [] (mk_header 8 0x0101 4) [] 1%nat).
  - unfold no_wrap. lia.
  - simpl. lia.
  - simpl. lia.
  - reflexivity.
  - reflexivity.
  - reflexivity.
  - constructor.
  - replace (wire_records 24 two_productid)
      with [mk_header 0 0x0101 4; mk_header 8 0x0101 4]
      by (vm_compute; reflexivity).
    repeat (constructor; [intros _; vm_compute; reflexivity|]). constructor.
Defined.

(** C8, as the code has it. A record whose tag is carried by more than one
    entry of the table is stored under the first of these entries, the one
    [tffs_find_id] returns; a later entry with the same tag is left as it
    was by every scan. *)
Theorem duplicate_tag_goes_to_first_entry
    host size fuel tbl buf pre r post i j ej :
  no_wrap size ->
  size <= Z.of_nat (length buf) ->
  (Z.to_nat size < fuel)%nat ->
  wire_records size buf = pre ++ r :: post ->
  Forall (fun h => h_tag h <> h_tag r) post ->
  Forall (fun h => registered tbl h = true -> in_bounds buf h = true)
         (wire_records size buf) ->
  tffs_find_id tbl (h_tag r) = Some i ->
  tbl !! j = Some ej -> id ej = h_tag r -> i <> j ->
  exists c tbl' buf' ei ei',
    tffs_parse host size fuel tbl buf = Some (Returned c tbl' buf') /\
    (i < j)%nat /\
    tbl !! i = Some ei /\ tbl' !! i = Some ei' /\
    name ei' = name ei /\
    val ei' = Some (payload buf r ++ [x00]) /\
    tbl' !! j = Some ej.
Proof.
  intros Hnw Hlen Hfuel Hrec Hpost Hall Hfind Hj Hid Hij.
  destruct (tffs_parse_returns host size fuel tbl buf Hnw Hlen Hfuel Hall)
    as (c & tbl' & Hd & Hp).
  pose proof (wire_records_range size buf) as Hrange.
  pose proof (tffs_find_from_Some _ _ _ _ Hfind) as (_ & (ei & Hei & Hidi) & Hfirst).
  rewrite Nat.sub_0_r in Hei, Hfirst.
  assert (0 <= h_tag r < 65536) as Hr.
  { rewrite Hrec in Hrange. apply Forall_app in Hrange as [_ Hrange].
    apply Forall_cons in Hrange as [Hr _]. exact (proj1 Hr). }
  rewrite wrap32_u16 in Hidi, Hfirst by assumption.
  assert (i < j)%nat as Hlt.
  { destruct (Nat.lt_trichotomy i j) as [H|[H|H]]; [exact H|congruence|].
    exfalso. apply (Hfirst j ej H Hj Hid). }
  assert (Forall (fun h => tffs_find_id tbl (h_tag h) <> Some j)
                 (wire_records size buf)) as Hnotj.
  { rewrite Forall_forall in *. intros h Hh Hfh.
    pose proof (tffs_find_from_Some _ _ _ _ Hfh) as (_ & (e & He & Hide) & Hfj).
    rewrite Nat.sub_0_r in He, Hfj.
    apply (Hfj i ei Hlt Hei). congruence. }
  pose proof (decode_records_untouched _ _ j _ _ _ _ Hd Hnotj) as Hjj.
  rewrite Hrec in Hd, Hrange.
  apply Forall_app in Hrange as [_ Hrange].
  apply Forall_cons in Hrange as [_ Hrange].
  destruct (decode_records_last buf pre r post tbl 0 c tbl' i ei Hd Hfind Hei)
    as [_ Hi].
  { eapply not_found_at_other_tag; [exact Hr|exact Hfind|exact Hrange|exact Hpost]. }
  exists c, tbl', (host_headers host (wire_headers size buf) buf), ei,
    (store_value (payload_pos r) (h_len r) (payload buf r) ei).
  repeat split; try assumption. congruence.
Qed.

Lemma duplicate_tag_goes_to_first_entry_witness :
  exists c tbl' buf' ei ei',
    tffs_parse LittleEndian 16 17 ids usb_record = Some (Returned c tbl' buf') /\
    (13 < 14)%nat /\
    ids !! 13%nat = Some ei /\ tbl' !! 13%nat = Some ei' /\
    name ei' = name ei /\
    val ei' = Some ([x31; x32; x33; x34] ++ [x00]) /\
    tbl' !! 14%nat = Some (entry 0x01A3 "usb_revision_id").
Proof.
  apply (duplicate_tag_goes_to_first_entry LittleEndian 16 17 ids usb_record
           [] (mk_header 0 0x01A3 4) [] 13%nat 14%nat
           (entry 0x01A3 "usb_revision_id")).
  - unfold no_wrap. lia.
  - simpl. lia.
  - simpl. lia.
  - reflexivity.
  - constructor.
  - replace (wire_records 16 usb_record) with [mk_header 0 0x01A3 4]
      by (vm_compute; reflexivity).
    repeat (constructor; [intros _; vm_compute; reflexivity|]). constructor.
  - reflexivity.
  - reflexivity.
  - reflexivity.
  - lia.
Defined.

(** C8, as stated, fails: after a record with tag 0x01A3 the value is held
    by [usb_device_id], the first entry with that tag; [usb_revision_id],
    the last entry with it, holds none. *)
Lemma duplicate_tag_not_last_entry :
  exists c tbl' buf' first_e last_e,
    tffs_parse LittleEndian 16 17 ids usb_record = Some (Returned c tbl' buf') /\
    tbl' !! 13%nat = Some first_e /\ tbl' !! 14%nat = Some last_e /\
    id first_e = 0x01A3 /\ id last_e = 0x01A3 /\
    name first_e = "usb_device_id" /\ name last_e = "usb_revision_id" /\
    val first_e = Some [x31; x32; x33; x34; x00] /\
    val last_e = None.
Proof.
  eexists _, _, _, _, _. split; [vm_compute; reflexivity|].
  repeat split; reflexivity.
Qed.

(** ** Calls one after the other *)

Lemma resolved_or_not tbl i (hs : list header) :
  Forall (fun h => tffs_find_id tbl (h_tag h) <> Some i) hs \/
  Exists (fun h => tffs_find_id tbl (h_tag h) = Some i) hs.
Proof.
  induction hs as [|h hs [IH|IH]].
  - left. constructor.
  - destruct (decide (tffs_find_id tbl (h_tag h) = Some i)) as [Hy|Hn].
    + right. left. exact Hy.
    + left. constructor; assumption.
  - right. right. exact IH.
Qed.

Lemma decode_records_two_tables buf hs : forall t1 t2 c c1 t1' c2 t2',
  key_of <$> t1 = key_of <$> t2 ->
  decode_records buf hs t1 c = Some (c1, t1') ->
  decode_records buf hs t2 c = Some (c2, t2') ->
  c1 = c2 /\
  forall i,
    (Forall (fun h => tffs_find_id t1 (h_tag h) <> Some i) hs ->
     t1' !! i = t1 !! i /\ t2' !! i = t2 !! i) /\
    (Exists (fun h => tffs_find_id t1 (h_tag h) = Some i) hs ->
     t1' !! i = t2' !! i).
Proof.
  induction hs as [|h hs IH]; intros t1 t2 c c1 t1' c2 t2' Hk; simpl.
  - intros [= <- <-] [= <- <-]. split; [reflexivity|]. intros i. split.
    + intros _. split; reflexivity.
    + intros Hex. inversion Hex.
  - rewrite <- (tffs_find_id_ids t1 t2 (h_tag h) (keys_ids _ _ Hk)).
    destruct (tffs_find_id t1 (h_tag h)) as [k|] eqn:Ef.
    + destruct (in_bounds buf h); [|discriminate].
      set (f := store_value (payload_pos h) (h_len h) (payload buf h)).
      intros H1 H2.
      assert (key_of <$> alter f k t1 = key_of <$> alter f k t2) as Hk'
        by (unfold f; rewrite !alter_store_value_keys; exact Hk).
      destruct (IH _ _ _ _ _ _ _ Hk' H1 H2) as [Hc Hi].
      split; [exact Hc|]. intros i. specialize (Hi i) as [Hun Hex].
      assert (forall hs',
        Forall (fun h => tffs_find_id t1 (h_tag h) <> Some i) hs' ->
        Forall (fun h => tffs_find_id (alter f k t1) (h_tag h) <> Some i) hs')
        as Hall.
      { intros hs' Hf. eapply Forall_impl; [exact Hf|]. intros x Hx.
        unfold f. rewrite tffs_find_id_alter. exact Hx. }
      split.
      * intros Hf. apply Forall_cons in Hf as [Hh Hf].
        destruct (Hun (Hall _ Hf)) as [E1 E2]. rewrite E1, E2.
        split; apply list_lookup_alter_ne; congruence.
      * intros He.
        destruct (resolved_or_not t1 i hs) as [Hnone|Hsome].
        -- (* no later record resolves to [i]: then [h] does *)
           apply Exists_cons in He as [Hh|He].
           ++ assert (k = i) as -> by congruence.
              destruct (Hun (Hall _ Hnone)) as [E1 E2]. rewrite E1, E2.
              rewrite !list_lookup_alter_eq.
              apply (f_equal (fun l => l !! i)) in Hk.
              rewrite !list_lookup_fmap in Hk.
              destruct (t1 !! i) as [e1|], (t2 !! i) as [e2|];
                try discriminate; [|reflexivity].
              simpl in *. f_equal. apply store_value_same_key. congruence.
           ++ exfalso. rewrite Forall_forall in Hnone.
              apply Exists_exists in He as (x & Hx & Hfx).
              exact (Hnone x Hx Hfx).
        -- apply Hex. eapply Exists_impl; [exact Hsome|]. intros x Hx.
           unfold f. rewrite tffs_find_id_alter. exact Hx.
    + intros H1 H2. destruct (IH _ _ _ _ _ _ _ Hk H1 H2) as [Hc Hi].
      split; [exact Hc|]. intros i. specialize (Hi i) as [Hun Hex]. split.
      * intros Hf. apply Forall_cons in Hf as [_ Hf]. exact (Hun Hf).
      * intros He. apply Exists_cons in He as [Hh|He]; [congruence|].
        exact (Hex He).
Qed.

Lemma decode_records_None_two_tables buf hs : forall t1 t2 c1 c2,
  key_of <$> t1 = key_of <$> t2 ->
  decode_records buf hs t1 c1 = None ->
  decode_records buf hs t2 c2 = None.
Proof.
  induction hs as [|h hs IH]; intros t1 t2 c1 c2 Hk; simpl; [discriminate|].
  rewrite <- (tffs_find_id_ids t1 t2 (h_tag h) (keys_ids _ _ Hk)).
  destruct (tffs_find_id t1 (h_tag h)) as [k|]; [|apply IH; exact Hk].
  destruct (in_bounds buf h); [|reflexivity].
  apply IH. rewrite !alter_store_value_keys. exact Hk.
Qed.

(** C9, as the code has it. The table is a global that [tffs_parse] updates
    in place and never clears.  A scan of [B] that follows an earlier scan
    (of [B0]) returns the count and leaves the buffer as the scan of [B] on
    the untouched table does, and the entries that a record of [B] resolves
    to are the same in both; every other entry still holds what the earlier
    scan left in it. *)
Theorem scan_after_earlier_scan
    host size fuel tbl B0 c0 t0 b0 B :
  no_wrap size ->
  size <= Z.of_nat (length B0) ->
  size <= Z.of_nat (length B) ->
  (Z.to_nat size < fuel)%nat ->
  tffs_parse host size fuel tbl B0 = Some (Returned c0 t0 b0) ->
  (tffs_parse host size fuel tbl B = Some Fault /\
   tffs_parse host size fuel t0 B = Some Fault) \/
  exists c t t' b,
    tffs_parse host size fuel tbl B = Some (Returned c t b) /\
    tffs_parse host size fuel t0 B = Some (Returned c t' b) /\
    forall i,
      (Forall (fun h => tffs_find_id tbl (h_tag h) <> Some i)
              (wire_records size B) ->
       t !! i = tbl !! i /\ t' !! i = t0 !! i) /\
      (Exists (fun h => tffs_find_id tbl (h_tag h) = Some i)
              (wire_records size B) ->
       t !! i = t' !! i).
Proof.
  intros Hnw Hlen0 Hlen Hfuel Hfirst.
  assert (key_of <$> tbl = key_of <$> t0) as Hk.
  { destruct (tffs_parse_cases host size fuel tbl B0 Hnw Hlen0 Hfuel)
      as [[_ Hf]|(c & t & Hd & Hp)]; [congruence|].
    rewrite Hp in Hfirst. injection Hfirst as -> -> _.
    symmetry. eapply decode_records_keys, Hd. }
  destruct (tffs_parse_cases host size fuel tbl B Hnw Hlen Hfuel)
    as [[Hn Hf]|(c & t & Hd & Hp)];
  destruct (tffs_parse_cases host size fuel t0 B Hnw Hlen Hfuel)
    as [[Hn' Hf']|(c' & t' & Hd' & Hp')].
  - left. split; assumption.
  - rewrite (decode_records_None_two_tables _ _ _ _ _ 0 Hk Hn) in Hd'.
    discriminate.
  - symmetry in Hk.
    rewrite (decode_records_None_two_tables _ _ _ _ _ 0 Hk Hn') in Hd.
    discriminate.
  - right.
    destruct (decode_records_two_tables _ _ _ _ _ _ _ _ _ Hk Hd Hd')
      as [<- Hi].
    exists c, t, t', (host_headers host (wire_headers size B) B).
    split; [exact Hp|]. split; [exact Hp'|]. exact Hi.
Qed.

Lemma scan_after_earlier_scan_witness :
  exists c0 t0 b0,
    tffs_parse LittleEndian 16 17 ids one_productid = Some (Returned c0 t0 b0) /\
    ((tffs_parse LittleEndian 16 17 ids only_sentinel = Some Fault /\
      tffs_parse LittleEndian 16 17 t0 only_sentinel = Some Fault) \/
     exists c t t' b,
       tffs_parse LittleEndian 16 17 ids only_sentinel = Some (Returned c t b) /\
       tffs_parse LittleEndian 16 17 t0 only_sentinel = Some (Returned c t' b) /\
       forall i,
         (Forall (fun h => tffs_find_id ids (h_tag h) <> Some i)
                 (wire_records 16 only_sentinel) ->
          t !! i = ids !! i /\ t' !! i = t0 !! i) /\
         (Exists (fun h => tffs_find_id ids (h_tag h) = Some i)
                 (wire_records 16 only_sentinel) ->
          t !! i = t' !! i)).
Proof.
  eexists _, _, _. split; [vm_compute; reflexivity|].
  eapply (scan_after_earlier_scan LittleEndian 16 17 ids one_productid).
  - unfold no_wrap. lia.
  - simpl. lia.
  - simpl. lia.
  - simpl. lia.
  - vm_compute. reflexivity.
Defined.

(** C9, as stated, fails: the scan of a buffer that starts with the sentinel
    leaves no value in the table of a fresh process, and after a scan of a
    buffer with a [productid] record it leaves the value of that earlier
    scan in the table. *)
Lemma earlier_scan_stays_visible :
  exists c0 t0 b0 t t' b,
    tffs_parse LittleEndian 16 17 ids one_productid = Some (Returned c0 t0 b0) /\
    tffs_parse LittleEndian 16 17 ids only_sentinel = Some (Returned 0 t b) /\
    tffs_parse LittleEndian 16 17 t0 only_sentinel = Some (Returned 0 t' b) /\
    val <$> t !! 1%nat = Some None /\
    val <$> t' !! 1%nat = Some (Some [x41; x42; x43; x44; x00]) /\
    t <> t'.
Proof.
  eexists _, _, _, _, _, _. split; [vm_compute; reflexivity|].
  split; [vm_compute; reflexivity|].
  split; [vm_compute; reflexivity|].
  split; [reflexivity|]. split; [reflexivity|].
  intros H. apply (f_equal (fun l => val <$> l !! 1%nat)) in H.
  vm_compute in H. discriminate.
Qed.

(** ** A payload window that leaves the buffer *)

(** C1 fails on the code. The buffer is 8 bytes long; its [productid]
    record declares 8 bytes of payload from offset 4.  [tffs_parse] has no
    check of the window: the [memcpy] reads past the end of the buffer, and
    no count, table or malformed-input indicator is returned. *)
Theorem overlong_record_reads_out_of_bounds :
  length overlong_record = 8%nat /\
  wire_records 8 overlong_record = [mk_header 0 0x0101 8] /\
  registered ids (mk_header 0 0x0101 8) = true /\
  in_bounds overlong_record (mk_header 0 0x0101 8) = false /\
  tffs_parse LittleEndian 8 9 ids overlong_record = Some Fault /\
  tffs_parse BigEndian 8 9 ids overlong_record = Some Fault.
Proof. repeat split; vm_compute; reflexivity. Qed.

(** The same in general: a record with a registered tag whose payload window
    leaves the memory behind [buffer] ends the call in an out-of-bounds
    read. *)
Lemma tffs_parse_out_of_bounds host size fuel tbl buf pre h post :
  no_wrap size ->
  size <= Z.of_nat (length buf) ->
  (Z.to_nat size < fuel)%nat ->
  wire_records size buf = pre ++ h :: post ->
  registered tbl h = true -> in_bounds buf h = false ->
  tffs_parse host size fuel tbl buf = Some Fault.
Proof.
  intros Hnw Hlen Hfuel Hrec Hreg Hout.
  destruct (tffs_parse_cases host size fuel tbl buf Hnw Hlen Hfuel)
    as [[_ Hf]|(c & t & Hd & _)]; [exact Hf|].
  rewrite Hrec, (decode_records_None buf pre h post tbl 0 Hreg Hout) in Hd.
  discriminate.
Qed.

(** ** The cursor *)


(** ** The ends of the scan *)

(** C5. A header with tag 0xFFFF ends the scan in the run of the loop body
    that reads it: [tffs_parse] returns with the count and the table as they
    were, an ordinary return.  When it is the first header of the buffer the
    count is 0 and the table is the one the call started with. *)
Theorem sentinel_ends_scan host size :
  (forall st L,
     0 <= pos st -> pos st + 4 + 65536 < 2 ^ 32 ->
     be16 (buffer st) (pos st) = Some 0xffff ->
     be16 (buffer st) (pos st + 2) = Some L ->
     tffs_body host st =
       Stop (Returned (count st) (table st)
               (host_header host (buffer st) (mk_header (pos st) 0xffff L)))) /\
  (forall fuel tbl buf,
     4 < size -> size <= Z.of_nat (length buf) ->
     buf !! 0%nat = Some xff -> buf !! 1%nat = Some xff ->
     (0 < fuel)%nat ->
     exists buf',
       tffs_parse host size fuel tbl buf = Some (Returned 0 tbl buf')).
Proof.
  split.
  - intros st L Hp Hmax Htag HL.
    rewrite (tffs_body_header host st 0xffff L) by assumption. reflexivity.
  - intros fuel tbl buf Hsize Hlen H0 H1 Hfuel.
    destruct fuel as [|fuel]; [lia|].
    assert (be16 buf 0 = Some 0xffff) as Htag
      by (unfold be16; change (Z.to_nat 0) with 0%nat;
          change (Z.to_nat (0 + 1)) with 1%nat; rewrite H0, H1; reflexivity).
    destruct (be16_is_Some buf 2) as [L HL]; [lia|lia|].
    unfold tffs_parse. simpl.
    change (wrap64 (0 + 4)) with 4.
    rewrite (tffs_body_header host _ 0xffff L); simpl; try (assumption || lia).
    destruct (Z.ltb_spec 4 size); [|lia].
    eexists. reflexivity.
Qed.

Lemma sentinel_ends_scan_witness :
  4 < 16 /\ 16 <= Z.of_nat (length only_sentinel) /\
  exists buf',
    tffs_parse LittleEndian 16 17 ids only_sentinel = Some (Returned 0 ids buf').
Proof.
  split; [lia|]. split; [simpl; lia|].
  apply (proj2 (sentinel_ends_scan LittleEndian 16) 17%nat ids only_sentinel).
  - lia.
  - simpl. lia.
  - reflexivity.
  - reflexivity.
  - lia.
Defined.

(** C6. The loop body runs only while [pos + 4 < tffs_size]: from a cursor
    with [tffs_size <= pos + 4] the loop is left with count, table and
    buffer as they are, so no header is read at the last four bytes of the
    buffer.  With [tffs_size <= 4], in particular for a buffer shorter than
    a header, the call returns count 0 with table and buffer untouched. *)
Theorem loop_bound_is_strict host size :
  (forall fuel st,
     0 <= pos st < 2 ^ 32 -> size <= pos st + 4 ->
     tffs_loop host size (S fuel) st =
       Some (Returned (count st) (table st) (buffer st))) /\
  (forall fuel st out,
     0 <= pos st < 2 ^ 32 ->
     tffs_loop host size (S fuel) st = Some out ->
     out <> Returned (count st) (table st) (buffer st) ->
     pos st + 4 < size /\ pos st <> size - 4) /\
  (forall fuel tbl buf,
     size <= 4 -> (0 < fuel)%nat ->
     tffs_parse host size fuel tbl buf = Some (Returned 0 tbl buf)).
Proof.
  assert (forall st, 0 <= pos st < 2 ^ 32 -> wrap64 (pos st + 4) = pos st + 4)
    as Hw by (intros st Hp; unfold wrap64; apply Z.mod_small; lia).
  split; [|split].
  - intros fuel st Hp Hge. simpl. rewrite Hw by assumption.
    destruct (Z.ltb_spec (pos st + 4) size); [lia|reflexivity].
  - intros fuel st out Hp Hl Hne. simpl in Hl. rewrite Hw in Hl by assumption.
    destruct (Z.ltb_spec (pos st + 4) size); [lia|].
    injection Hl as <-. contradiction.
  - intros fuel tbl buf Hsize Hfuel. destruct fuel as [|fuel]; [lia|].
    unfold tffs_parse. simpl. change (wrap64 (0 + 4)) with 4.
    destruct (Z.ltb_spec 4 size); [lia|reflexivity].
Qed.

Lemma loop_bound_is_strict_witness :
  tffs_loop LittleEndian 8 1
    {| buffer := overlong_record; table := ids; pos := 4; count := 0 |}
  = Some (Returned 0 ids overlong_record) /\
  tffs_parse LittleEndian 3 1 ids [x01; x01; x00] =
    Some (Returned 0 ids [x01; x01; x00]).
Proof.
  destruct (loop_bound_is_strict LittleEndian 8) as (Hexit & _ & _).
  destruct (loop_bound_is_strict LittleEndian 3) as (_ & _ & Hshort).
  split.
  - apply (Hexit 0%nat
             {| buffer := overlong_record; table := ids; pos := 4; count := 0 |});
      simpl; lia.
  - apply Hshort; lia.
Defined.

(** ** The write-back of the headers *)

Lemma host_header_other host buf h (k : nat) :
  0 <= h_pos h ->
  (Z.of_nat k < h_pos h \/ h_pos h + 4 <= Z.of_nat k) ->
  host_header host buf h !! k = buf !! k.
Proof.
  intros Hp Hk. unfold host_header.
  rewrite !write16_other by lia. reflexivity.
Qed.

Lemma length_host_headers host hs : forall buf,
  length (host_headers host hs buf) = length buf.
Proof.
  unfold host_headers.
  induction hs as [|h hs IH]; intros buf; simpl; [reflexivity|].
  rewrite IH. apply length_host_header.
Qed.

Lemma host_headers_other host hs (k : nat) : forall buf,
  Forall (fun h => 0 <= h_pos h /\
                   (Z.of_nat k < h_pos h \/ h_pos h + 4 <= Z.of_nat k)) hs ->
  host_headers host hs buf !! k = buf !! k.
Proof.
  unfold host_headers.
  induction hs as [|h hs IH]; intros buf Hall; simpl; [reflexivity|].
  apply Forall_cons in Hall as [[Hp Hk] Hall].
  rewrite IH by assumption. apply host_header_other; assumption.
Qed.

Lemma host_header_bytes host buf h (j : nat) :
  0 <= h_pos h -> h_pos h + 4 <= Z.of_nat (length buf) -> (j < 4)%nat ->
  host_header host buf h !! (Z.to_nat (h_pos h) + j)%nat =
  header_bytes host h !! j.
Proof.
  intros Hp Hlen Hj. unfold host_header, header_bytes, write16.
  destruct (store16 host (h_tag h)) as [t0 t1].
  destruct (store16 host (h_len h)) as [l0 l1].
  replace (Z.to_nat (h_pos h + 1)) with (Z.to_nat (h_pos h) + 1)%nat by lia.
  replace (Z.to_nat (h_pos h + 2)) with (Z.to_nat (h_pos h) + 2)%nat by lia.
  replace (Z.to_nat (h_pos h + 2 + 1)) with (Z.to_nat (h_pos h) + 3)%nat by lia.
  destruct j as [|[|[|[|j]]]]; [| | |  |lia]; simpl.
  - rewrite Nat.add_0_r.
    rewrite !list_lookup_insert_ne by lia.
    apply list_lookup_insert_eq. lia.
  - rewrite !(list_lookup_insert_ne _ (_ + 3)%nat), !(list_lookup_insert_ne _ (_ + 2)%nat) by lia.
    apply list_lookup_insert_eq. rewrite length_insert. lia.
  - rewrite !(list_lookup_insert_ne _ (_ + 3)%nat) by lia.
    apply list_lookup_insert_eq. rewrite !length_insert. lia.
  - apply list_lookup_insert_eq. rewrite !length_insert. lia.
Qed.

Lemma headers_from_fields size buf : forall fuel p,
  Forall (fun h => be16 buf (h_pos h) = Some (h_tag h) /\
                   be16 buf (h_pos h + 2) = Some (h_len h))
         (headers_from fuel size buf p).
Proof.
  induction fuel as [|fuel IH]; intros p; simpl; [constructor|].
  destruct (p + 4 <? size); [|constructor].
  destruct (be16 buf p) as [tag|] eqn:Etag; [|constructor].
  destruct (be16 buf (p + 2)) as [L|] eqn:EL; [|constructor].
  constructor; [simpl; split; assumption|].
  destruct (tag =? sentinel); [constructor|apply IH].
Qed.

(** After the write-back of a stream of headers each of them holds its
    fields in host order. *)
Lemma host_headers_bytes host size buf : forall fuel p b,
  0 <= p -> size <= Z.of_nat (length b) ->
  forall h (j : nat),
  h ∈ headers_from fuel size buf p -> (j < 4)%nat ->
  host_headers host (headers_from fuel size buf p) b
    !! (Z.to_nat (h_pos h) + j)%nat = header_bytes host h !! j.
Proof.
  induction fuel as [|fuel IH]; intros p b Hp Hlen h j Hin Hj; simpl in *.
  { apply elem_of_nil in Hin. contradiction. }
  destruct (Z.ltb_spec (p + 4) size) as [Hlt|];
    [|apply elem_of_nil in Hin; contradiction].
  destruct (be16 buf p) as [tag|] eqn:Etag;
    [|apply elem_of_nil in Hin; contradiction].
  destruct (be16 buf (p + 2)) as [L|] eqn:EL;
    [|apply elem_of_nil in Hin; contradiction].
  set (h0 := mk_header p tag L) in *.
  set (rest := if tag =? sentinel then []
               else headers_from fuel size buf (p + 4 + padded L)) in *.
  pose proof (be16_range _ _ _ EL) as HLr.
  pose proof (padded_bounds L ltac:(lia)) as Hpad.
  assert (Forall (fun x => p + 4 <= h_pos x /\ h_pos x + 4 < size) rest) as Hrest.
  { unfold rest. destruct (tag =? sentinel); [constructor|].
    eapply Forall_impl; [apply headers_from_pos|]. simpl. intros x [? ?]. lia. }
  change (host_headers host (h0 :: rest) b)
    with (host_headers host rest (host_header host b h0)).
  apply elem_of_cons in Hin as [->|Hin].
  - rewrite host_headers_other.
    + apply host_header_bytes; simpl; lia.
    + eapply Forall_impl; [exact Hrest|]. simpl. intros x [? ?]. lia.
  - unfold rest in *. destruct (tag =? sentinel).
    + apply elem_of_nil in Hin. contradiction.
    + apply IH; try assumption; [lia|]. rewrite length_host_header. assumption.
Qed.

(** C10. [tffs_parse] writes to the buffer it is given.  When the call
    returns, every header the scan read (those of records with a tag of the
    table or not, and the sentinel's) holds the tag and the length, as the
    big-endian fields of the original bytes give them, in the byte order of
    the host; every byte outside these headers, payload and padding
    included, is as it was. *)
Theorem headers_rewritten_in_host_order host size fuel tbl buf :
  no_wrap size ->
  size <= Z.of_nat (length buf) ->
  (Z.to_nat size < fuel)%nat ->
  tffs_parse host size fuel tbl buf = Some Fault \/
  exists c tbl' buf',
    tffs_parse host size fuel tbl buf = Some (Returned c tbl' buf') /\
    length buf' = length buf /\
    (forall h (j : nat),
       h ∈ wire_headers size buf -> (j < 4)%nat ->
       be16 buf (h_pos h) = Some (h_tag h) /\
       be16 buf (h_pos h + 2) = Some (h_len h) /\
       buf' !! (Z.to_nat (h_pos h) + j)%nat = header_bytes host h !! j) /\
    (forall k : nat,
       Forall (fun h => Z.of_nat k < h_pos h \/ h_pos h + 4 <= Z.of_nat k)
              (wire_headers size buf) ->
       buf' !! k = buf !! k).
Proof.
  intros Hnw Hlen Hfuel.
  destruct (tffs_parse_cases host size fuel tbl buf Hnw Hlen Hfuel)
    as [[_ Hf]|(c & tbl' & _ & Hp)]; [left; exact Hf|right].
  exists c, tbl', (host_headers host (wire_headers size buf) buf).
  split; [exact Hp|]. split; [apply length_host_headers|]. split.
  - intros h j Hin Hj.
    pose proof (headers_from_fields size buf (S (Z.to_nat size)) 0) as Hfields.
    rewrite Forall_forall in Hfields.
    destruct (Hfields h Hin) as [Ht Hl].
    split; [exact Ht|]. split; [exact Hl|].
    apply (host_headers_bytes host size buf (S (Z.to_nat size)) 0 buf);
      (assumption || lia).
  - intros k Hall. apply host_headers_other.
    pose proof (headers_from_pos size buf (S (Z.to_nat size)) 0) as Hpos.
    unfold wire_headers in Hall. rewrite Forall_forall in *.
    intros h Hin. split; [apply (Hpos h Hin)|apply (Hall h Hin)].
Qed.

Lemma headers_rewritten_in_host_order_witness :
  wire_headers 16 unknown_then_sentinel =
    [mk_header 0 0x0001 2; mk_header 8 0xffff 0x1234] /\
  tffs_parse LittleEndian 16 17 ids unknown_then_sentinel =
    Some (Returned 0 ids
            [x01; x00; x02; x00; x68; x69; x00; x00;
             xff; xff; x34; x12; xff; xff; xff; xff]) /\
  (tffs_parse LittleEndian 16 17 ids unknown_then_sentinel = Some Fault \/
   exists c tbl' buf',
     tffs_parse LittleEndian 16 17 ids unknown_then_sentinel =
       Some (Returned c tbl' buf') /\
     length buf' = length unknown_then_sentinel /\
     (forall h (j : nat),
        h ∈ wire_headers 16 unknown_then_sentinel -> (j < 4)%nat ->
        be16 unknown_then_sentinel (h_pos h) = Some (h_tag h) /\
        be16 unknown_then_sentinel (h_pos h + 2) = Some (h_len h) /\
        buf' !! (Z.to_nat (h_pos h) + j)%nat = header_bytes LittleEndian h !! j) /\
     (forall k : nat,
        Forall (fun h => Z.of_nat k < h_pos h \/ h_pos h + 4 <= Z.of_nat k)
               (wire_headers 16 unknown_then_sentinel) ->
        buf' !! k = unknown_then_sentinel !! k)).
Proof.
  split; [reflexivity|]. split; [vm_compute; reflexivity|].
  apply (headers_rewritten_in_host_order LittleEndian 16 17 ids
           unknown_then_sentinel).
  - unfold no_wrap. lia.
  - simpl. lia.
  - simpl. lia.
Defined.

(** ** What every scan keeps *)

(** The body of the loop assigns [val], [offset] and [len] only. *)
Lemma tffs_body_keeps_keys host st st' :
  tffs_body host st = Continue st' ->
  key_of <$> table st' = key_of <$> table st /\
  length (buffer st') = length (buffer st).
Proof.
  unfold tffs_body.
  destruct (read16 host (buffer st) (pos st)) as [raw_id|]; [|discriminate].
  destruct (read16 host _ (pos st + 2)) as [raw_len|]; [|discriminate].
  destruct (_ =? 0xffff); [discriminate|].
  destruct (tffs_find_id (table st) _) as [i|].
  - destruct (memcpy_src _ _ _) as [pl|]; [|discriminate].
    intros [= <-]. simpl. rewrite alter_store_value_keys, !length_write16.
    split; reflexivity.
  - intros [= <-]. simpl. rewrite !length_write16. split; reflexivity.
Qed.

Lemma tffs_body_Stop_keeps host st c tbl' buf' :
  tffs_body host st = Stop (Returned c tbl' buf') ->
  tbl' = table st /\ c = count st /\ length buf' = length (buffer st).
Proof.
  unfold tffs_body.
  destruct (read16 host (buffer st) (pos st)) as [raw_id|]; [|discriminate].
  destruct (read16 host _ (pos st + 2)) as [raw_len|]; [|discriminate].
  destruct (_ =? 0xffff).
  - intros [= <- <- <-]. rewrite !length_write16. repeat split; reflexivity.
  - destruct (tffs_find_id (table st) _) as [i|]; [|discriminate].
    destruct (memcpy_src _ _ _) as [pl|]; discriminate.
Qed.

(** Whatever the buffer holds, whatever [tffs_size] is and however long
    the scan runs, a call that returns leaves the table with the same
    entries in the same order, each with the tag and the name it had, and
    the buffer with the length it had. *)
Theorem tffs_parse_keeps_table_keys host size fuel tbl buf c tbl' buf' :
  tffs_parse host size fuel tbl buf = Some (Returned c tbl' buf') ->
  id <$> tbl' = id <$> tbl /\
  name <$> tbl' = name <$> tbl /\
  length tbl' = length tbl /\
  length buf' = length buf.
Proof.
  unfold tffs_parse.
  assert (forall st,
    tffs_loop host size fuel st = Some (Returned c tbl' buf') ->
    key_of <$> tbl' = key_of <$> table st /\
    length buf' = length (buffer st)) as Hloop.
  { induction fuel as [|fuel IH]; intros st; simpl; [discriminate|].
    destruct (wrap64 (pos st + 4) <? size).
    - destruct (tffs_body host st) as [st'|[c1 t1 b1|]] eqn:Hb.
      + intros Hl. apply IH in Hl as [Hk Hlen].
        apply tffs_body_keeps_keys in Hb as [Hk' Hlen']. split; congruence.
      + intros [= -> -> ->].
        apply tffs_body_Stop_keeps in Hb as (-> & _ & Hlen).
        split; [reflexivity|exact Hlen].
      + discriminate.
    - intros [= _ <- <-]. split; reflexivity. }
  intros Hp. apply Hloop in Hp as [Hk Hlen]. simpl in *.
  split; [apply keys_ids; exact Hk|]. split.
  - apply (f_equal (fmap snd)) in Hk.
    rewrite <- !list_fmap_compose in Hk. exact Hk.
  - split; [|exact Hlen].
    apply (f_equal length) in Hk. rewrite !length_fmap in Hk. exact Hk.
Qed.

Lemma tffs_parse_keeps_table_keys_witness :
  exists c tbl' buf',
    tffs_parse LittleEndian 24 25 ids two_productid = Some (Returned c tbl' buf') /\
    id <$> tbl' = id <$> ids /\
    name <$> tbl' = name <$> ids /\
    length tbl' = length ids /\
    length buf' = length two_productid.
Proof.
  eexists _, _, _. split; [vm_compute; reflexivity|].
  eapply (tffs_parse_keeps_table_keys LittleEndian 24 25 ids two_productid).
  vm_compute. reflexivity.
Defined.

(** ** When a scan faults *)

Lemma in_bounds_or_not tbl buf (hs : list header) :
  Forall (fun h => registered tbl h = true -> in_bounds buf h = true) hs \/
  Exists (fun h => registered tbl h = true /\ in_bounds buf h = false) hs.
Proof.
  induction hs as [|h hs [IH|IH]].
  - left. constructor.
  - destruct (registered tbl h) eqn:Hr, (in_bounds buf h) eqn:Hb;
      try (left; constructor; [congruence|exact IH]).
    right. left. split; [exact Hr|exact Hb].
  - right. right. exact IH.
Qed.

(** A call ends in an out-of-bounds read exactly when the buffer holds a
    record with a tag of the table whose payload window leaves the memory
    behind the buffer; otherwise it returns. *)
Theorem tffs_parse_faults_iff host size fuel tbl buf :
  no_wrap size ->
  size <= Z.of_nat (length buf) ->
  (Z.to_nat size < fuel)%nat ->
  (tffs_parse host size fuel tbl buf = Some Fault <->
   Exists (fun h => registered tbl h = true /\ in_bounds buf h = false)
          (wire_records size buf)) /\
  ((exists c tbl' buf',
      tffs_parse host size fuel tbl buf = Some (Returned c tbl' buf')) <->
   Forall (fun h => registered tbl h = true -> in_bounds buf h = true)
          (wire_records size buf)).
Proof.
  intros Hnw Hlen Hfuel.
  assert (Exists (fun h => registered tbl h = true /\ in_bounds buf h = false)
                 (wire_records size buf) ->
          tffs_parse host size fuel tbl buf = Some Fault) as Hfault.
  { intros Hex. apply Exists_exists in Hex as (h & Hin & Hreg & Hout).
    apply list_elem_of_split in Hin as (pre & post & Hsplit).
    eapply tffs_parse_out_of_bounds; eassumption. }
  assert (Forall (fun h => registered tbl h = true -> in_bounds buf h = true)
                 (wire_records size buf) ->
          exists c tbl' buf',
            tffs_parse host size fuel tbl buf = Some (Returned c tbl' buf'))
    as Hret.
  { intros Hall.
    destruct (tffs_parse_returns host size fuel tbl buf Hnw Hlen Hfuel Hall)
      as (c & tbl' & _ & Hp). eauto. }
  split; split.
  - intros Hf.
    destruct (in_bounds_or_not tbl buf (wire_records size buf)) as [Hall|Hex];
      [|exact Hex].
    destruct (Hret Hall) as (c & tbl' & buf' & Hp). congruence.
  - exact Hfault.
  - intros (c & tbl' & buf' & Hp).
    destruct (in_bounds_or_not tbl buf (wire_records size buf)) as [Hall|Hex];
      [exact Hall|].
    rewrite (Hfault Hex) in Hp. discriminate.
  - exact Hret.
Qed.

Lemma tffs_parse_faults_iff_witness :
  (tffs_parse LittleEndian 8 9 ids overlong_record = Some Fault <->
   Exists (fun h => registered ids h = true /\ in_bounds overlong_record h = false)
          (wire_records 8 overlong_record)) /\
  ((exists c tbl' buf',
      tffs_parse LittleEndian 8 9 ids overlong_record =
        Some (Returned c tbl' buf')) <->
   Forall (fun h => registered ids h = true -> in_bounds overlong_record h = true)
          (wire_records 8 overlong_record)).
Proof.
  apply (tffs_parse_faults_iff LittleEndian 8 9 ids overlong_record).
  - unfold no_wrap. lia.
  - simpl. lia.
  - simpl. lia.
Defined.

(** ** The count and the values *)

Lemma headers_from_length size buf : forall fuel p,
  0 <= p ->
  4 * Z.of_nat (length (headers_from fuel size buf p)) <= Z.max 0 (size - p - 1).
Proof.
  induction fuel as [|fuel IH]; intros p Hp; simpl; [lia|].
  destruct (Z.ltb_spec (p + 4) size); [|simpl; lia].
  destruct (be16 buf p) as [tag|]; [|simpl; lia].
  destruct (be16 buf (p + 2)) as [L|] eqn:EL; [|simpl; lia].
  apply be16_range in EL. pose proof (padded_bounds L ltac:(lia)).
  destruct (tag =? sentinel); simpl length; [simpl; lia|].
  specialize (IH (p + 4 + padded L) ltac:(lia)). lia.
Qed.

Lemma filter_length_le {A} (f : A -> bool) (l : list A) :
  (length (List.filter f l) <= length l)%nat.
Proof.
  induction l as [|x l IH]; simpl; [lia|]. destruct (f x); simpl; lia.
Qed.

(** The count a call returns is at most a quarter of [tffs_size]: every
    counted record has a header of its own, four bytes long, below
    [tffs_size - 1].  The 32-bit counter cannot wrap. *)
Theorem count_is_bounded host size fuel tbl buf c tbl' buf' :
  no_wrap size ->
  size <= Z.of_nat (length buf) ->
  (Z.to_nat size < fuel)%nat ->
  tffs_parse host size fuel tbl buf = Some (Returned c tbl' buf') ->
  0 <= c /\ 4 * c <= Z.max 0 (size - 1) /\ c < 2 ^ 30.
Proof.
  intros Hnw Hlen Hfuel Hp.
  destruct (tffs_parse_cases host size fuel tbl buf Hnw Hlen Hfuel)
    as [[_ Hf]|(c1 & t1 & Hd & Hp1)]; [congruence|].
  rewrite Hp1 in Hp. injection Hp as -> _ _.
  apply decode_records_count in Hd.
  pose proof (filter_length_le (registered tbl) (wire_records size buf)) as H1.
  pose proof (filter_length_le is_record (wire_headers size buf)) as H2.
  pose proof (headers_from_length size buf (S (Z.to_nat size)) 0 ltac:(lia)) as H3.
  unfold wire_records in *. unfold wire_headers in *. unfold no_wrap in Hnw.
  lia.
Qed.

Lemma count_is_bounded_witness :
  exists c tbl' buf',
    tffs_parse LittleEndian 24 25 ids two_productid = Some (Returned c tbl' buf') /\
    0 <= c /\ 4 * c <= Z.max 0 (24 - 1) /\ c < 2 ^ 30.
Proof.
  eexists _, _, _. split; [vm_compute; reflexivity|].
  eapply (count_is_bounded LittleEndian 24 25 ids two_productid).
  - unfold no_wrap. lia.
  - simpl. lia.
  - simpl. lia.
  - vm_compute. reflexivity.
Defined.

Lemma tffs_find_id_lt tbl tag i :
  tffs_find_id tbl tag = Some i -> (i < length tbl)%nat.
Proof.
  intros Hf. apply tffs_find_from_Some in Hf as (_ & (e & He & _) & _).
  rewrite Nat.sub_0_r in He. eapply lookup_lt_Some, He.
Qed.

Lemma count_values_alter_ge p n pl (tbl : list tffs_id) : forall i : nat,
  (i < length tbl)%nat ->
  (1 <= count_values (alter (store_value p n pl) i tbl))%nat /\
  (count_values tbl <= count_values (alter (store_value p n pl) i tbl))%nat.
Proof.
  unfold count_values.
  induction tbl as [|e tbl IH]; intros [|i] Hi; simpl in *; try lia.
  - destruct (has_value e); simpl; lia.
  - specialize (IH i ltac:(lia)).
    change (alter ?f i tbl) with (list_alter f i tbl) in IH.
    destruct (has_value e); simpl; lia.
Qed.

Lemma decode_records_values_grow buf hs : forall tbl c c' tbl',
  decode_records buf hs tbl c = Some (c', tbl') ->
  (count_values tbl <= count_values tbl')%nat /\
  (c < c' -> (1 <= count_values tbl')%nat).
Proof.
  induction hs as [|h hs IH]; intros tbl c c' tbl'; simpl.
  - intros [= <- <-]. split; lia.
  - destruct (tffs_find_id tbl (h_tag h)) as [i|] eqn:Ef; [|apply IH].
    destruct (in_bounds buf h); [|discriminate].
    intros Hd. apply IH in Hd as [Hmono _].
    apply tffs_find_id_lt in Ef.
    pose proof (count_values_alter_ge (payload_pos h) (h_len h)
                  (payload buf h) tbl i Ef). lia.
Qed.

Lemma decode_records_none_registered buf hs : forall tbl c,
  List.filter (registered tbl) hs = [] ->
  decode_records buf hs tbl c = Some (c, tbl).
Proof.
  induction hs as [|h hs IH]; intros tbl c; simpl; [reflexivity|].
  unfold registered at 1.
  destruct (tffs_find_id tbl (h_tag h)); [discriminate|]. apply IH.
Qed.

(** On a table without values, as [ids] is when the program starts, the
    count is 0 exactly when the scan leaves no value in the table, and then
    the table is as it was: [main]'s test [!tffs_parse(buffer)] does tell
    whether there is anything to print. *)
Theorem count_zero_iff_no_value host size fuel tbl buf c tbl' buf' :
  no_wrap size ->
  size <= Z.of_nat (length buf) ->
  (Z.to_nat size < fuel)%nat ->
  count_values tbl = 0%nat ->
  tffs_parse host size fuel tbl buf = Some (Returned c tbl' buf') ->
  (c = 0 <-> count_values tbl' = 0%nat) /\
  (c = 0 -> tbl' = tbl).
Proof.
  intros Hnw Hlen Hfuel Hfresh Hp.
  destruct (tffs_parse_cases host size fuel tbl buf Hnw Hlen Hfuel)
    as [[_ Hf]|(c1 & t1 & Hd & Hp1)]; [congruence|].
  rewrite Hp1 in Hp. injection Hp as -> -> _.
  pose proof (decode_records_count _ _ _ _ _ _ Hd) as Hc.
  pose proof (decode_records_values_grow _ _ _ _ _ _ Hd) as [_ Hpos].
  assert (c = 0 -> tbl' = tbl) as Hsame.
  { intros ->.
    destruct (List.filter (registered tbl) (wire_records size buf)) eqn:Hfil;
      [|simpl in Hc; lia].
    rewrite (decode_records_none_registered _ _ _ _ Hfil) in Hd. congruence. }
  split; [|exact Hsame]. split.
  - intros Hz. rewrite (Hsame Hz). exact Hfresh.
  - intros Hz. lia.
Qed.

Lemma count_zero_iff_no_value_witness :
  exists c tbl' buf',
    tffs_parse LittleEndian 16 17 ids unknown_then_sentinel =
      Some (Returned c tbl' buf') /\
    (c = 0 <-> count_values tbl' = 0%nat) /\
    (c = 0 -> tbl' = ids).
Proof.
  eexists _, _, _. split; [vm_compute; reflexivity|].
  eapply (count_zero_iff_no_value LittleEndian 16 17 ids unknown_then_sentinel).
  - unfold no_wrap. lia.
  - simpl. lia.
  - simpl. lia.
  - reflexivity.
  - vm_compute. reflexivity.
Defined.

(** ** Values, offsets and lengths *)

Lemma padded_mod4 L : padded L mod 4 = 0.
Proof. unfold padded. rewrite Z.mul_comm. apply Z.mod_mul. lia. Qed.

Lemma headers_from_aligned size buf : forall fuel p,
  p mod 4 = 0 ->
  Forall (fun h => h_pos h mod 4 = 0) (headers_from fuel size buf p).
Proof.
  induction fuel as [|fuel IH]; intros p Hp; simpl; [constructor|].
  destruct (p + 4 <? size); [|constructor].
  destruct (be16 buf p) as [tag|]; [|constructor].
  destruct (be16 buf (p + 2)) as [L|]; [|constructor].
  constructor; [exact Hp|].
  destruct (tag =? sentinel); [constructor|]. apply IH.
  rewrite <- Z.add_assoc, Z.add_mod, Hp by lia.
  rewrite (Z.add_mod 4 (padded L)), padded_mod4 by lia. reflexivity.
Qed.

Lemma decode_records_slices buf hs :
  Forall (fun h => 0 <= h_pos h /\ h_pos h mod 4 = 0 /\
                   0 <= h_len h < 65536) hs ->
  forall tbl c c' tbl',
  Forall (value_is_slice buf) tbl ->
  decode_records buf hs tbl c = Some (c', tbl') ->
  Forall (value_is_slice buf) tbl'.
Proof.
  induction 1 as [|h hs (Hp & Hal & HL) Hhs IH]; intros tbl c c' tbl' Htbl; simpl.
  - intros [= _ <-]. exact Htbl.
  - destruct (tffs_find_id tbl (h_tag h)) as [i|]; [|apply IH; exact Htbl].
    destruct (in_bounds buf h) eqn:Hb; [|discriminate].
    apply IH. apply Forall_alter; [exact Htbl|].
    intros e _ _. unfold value_is_slice, store_value, payload, payload_pos in *.
    simpl. unfold in_bounds, payload_pos in Hb.
    apply Z.leb_le in Hb.
    split; [reflexivity|]. split; [lia|]. split; [|lia].
    rewrite Z.add_mod, Hal by lia. reflexivity.
Qed.

(** Every value a scan leaves in the table is a copy of the bytes of the
    buffer that the entry's [offset] and [len] name, with a NUL after
    them; the offset is a multiple of 4 behind a header, the length is
    below 65536 and the window lies inside the buffer.  Entries that held
    such a value before the scan still do. *)
Theorem values_are_slices_of_buffer host size fuel tbl buf c tbl' buf' :
  no_wrap size ->
  size <= Z.of_nat (length buf) ->
  (Z.to_nat size < fuel)%nat ->
  Forall (value_is_slice buf) tbl ->
  tffs_parse host size fuel tbl buf = Some (Returned c tbl' buf') ->
  Forall (value_is_slice buf) tbl'.
Proof.
  intros Hnw Hlen Hfuel Htbl Hp.
  destruct (tffs_parse_cases host size fuel tbl buf Hnw Hlen Hfuel)
    as [[_ Hf]|(c1 & t1 & Hd & Hp1)]; [congruence|].
  rewrite Hp1 in Hp. injection Hp as -> -> _.
  eapply decode_records_slices; [|exact Htbl|exact Hd].
  unfold wire_records, wire_headers. apply Forall_forall. intros h Hin.
  apply list_elem_of_In, filter_In in Hin as [Hin _].
  apply list_elem_of_In in Hin.
  pose proof (headers_from_pos size buf (S (Z.to_nat size)) 0) as H1.
  pose proof (headers_from_range size buf (S (Z.to_nat size)) 0) as H2.
  pose proof (headers_from_aligned size buf (S (Z.to_nat size)) 0 eq_refl) as H3.
  rewrite Forall_forall in H1, H2, H3.
  specialize (H1 h Hin). specialize (H2 h Hin). specialize (H3 h Hin).
  split; [lia|]. split; [exact H3|lia].
Qed.

Lemma values_are_slices_of_buffer_witness :
  exists c tbl' buf',
    tffs_parse LittleEndian 24 25 ids two_productid = Some (Returned c tbl' buf') /\
    Forall (value_is_slice two_productid) tbl'.
Proof.
  eexists _, _, _. split; [vm_compute; reflexivity|].
  eapply (values_are_slices_of_buffer LittleEndian 24 25 ids two_productid).
  - unfold no_wrap. lia.
  - simpl. lia.
  - simpl. lia.
  - unfold ids. repeat constructor.
  - vm_compute. reflexivity.
Defined.

(** ** The byte order of the host *)

Lemma host_header_BigEndian buf h :
  be16 buf (h_pos h) = Some (h_tag h) ->
  be16 buf (h_pos h + 2) = Some (h_len h) ->
  host_header BigEndian buf h = buf.
Proof.
  unfold be16, host_header, write16. intros Ht Hl.
  destruct (buf !! Z.to_nat (h_pos h)) as [b0|] eqn:E0; [|discriminate].
  destruct (buf !! Z.to_nat (h_pos h + 1)) as [b1|] eqn:E1; [|discriminate].
  destruct (buf !! Z.to_nat (h_pos h + 2)) as [b2|] eqn:E2; [|discriminate].
  destruct (buf !! Z.to_nat (h_pos h + 2 + 1)) as [b3|] eqn:E3; [|discriminate].
  injection Ht as <-. injection Hl as <-.
  rewrite !(store16_be_value BigEndian).
  rewrite (list_insert_id buf _ b0) by exact E0.
  rewrite (list_insert_id buf _ b1) by exact E1.
  rewrite (list_insert_id buf _ b2) by exact E2.
  apply list_insert_id. exact E3.
Qed.

Lemma host_headers_BigEndian buf hs :
  Forall (fun h => be16 buf (h_pos h) = Some (h_tag h) /\
                   be16 buf (h_pos h + 2) = Some (h_len h)) hs ->
  host_headers BigEndian hs buf = buf.
Proof.
  unfold host_headers. induction 1 as [|h hs [Ht Hl] _ IH]; simpl; [reflexivity|].
  rewrite host_header_BigEndian by assumption. exact IH.
Qed.

(** On a big-endian host [ntohs] is the identity: a call that returns
    leaves every byte of the buffer as it was. *)
Theorem big_endian_host_keeps_buffer size fuel tbl buf c tbl' buf' :
  no_wrap size ->
  size <= Z.of_nat (length buf) ->
  (Z.to_nat size < fuel)%nat ->
  tffs_parse BigEndian size fuel tbl buf = Some (Returned c tbl' buf') ->
  buf' = buf.
Proof.
  intros Hnw Hlen Hfuel Hp.
  destruct (tffs_parse_cases BigEndian size fuel tbl buf Hnw Hlen Hfuel)
    as [[_ Hf]|(c1 & t1 & _ & Hp1)]; [congruence|].
  rewrite Hp1 in Hp. injection Hp as _ _ <-.
  apply host_headers_BigEndian, headers_from_fields.
Qed.

Lemma big_endian_host_keeps_buffer_witness :
  exists c tbl',
    tffs_parse BigEndian 24 25 ids two_productid =
      Some (Returned c tbl' two_productid).
Proof.
  assert (exists c tbl' buf',
            tffs_parse BigEndian 24 25 ids two_productid =
              Some (Returned c tbl' buf')) as (c & tbl' & buf' & Hp)
    by (eexists _, _, _; vm_compute; reflexivity).
  exists c, tbl'.
  rewrite <- (big_endian_host_keeps_buffer 24 25 ids two_productid c tbl' buf')
    at 2; [exact Hp|unfold no_wrap; lia|simpl; lia|simpl; lia|exact Hp].
Defined.

(** On a little-endian host a call that returns has exchanged the two
    bytes of the tag and the two bytes of the length of every header it
    read: the buffer no longer holds the big-endian stream it was given. *)
Theorem little_endian_host_swaps_header_bytes
    size fuel tbl buf c tbl' buf' h :
  no_wrap size ->
  size <= Z.of_nat (length buf) ->
  (Z.to_nat size < fuel)%nat ->
  tffs_parse LittleEndian size fuel tbl buf = Some (Returned c tbl' buf') ->
  h ∈ wire_headers size buf ->
  let p := Z.to_nat (h_pos h) in
  buf' !! p = buf !! (p + 1)%nat /\
  buf' !! (p + 1)%nat = buf !! p /\
  buf' !! (p + 2)%nat = buf !! (p + 3)%nat /\
  buf' !! (p + 3)%nat = buf !! (p + 2)%nat.
Proof.
  intros Hnw Hlen Hfuel Hp Hin p.
  destruct (tffs_parse_cases LittleEndian size fuel tbl buf Hnw Hlen Hfuel)
    as [[_ Hf]|(c1 & t1 & _ & Hp1)]; [congruence|].
  rewrite Hp1 in Hp. injection Hp as _ _ <-.
  pose proof (headers_from_fields size buf (S (Z.to_nat size)) 0) as Hfields.
  pose proof (headers_from_pos size buf (S (Z.to_nat size)) 0) as Hpos.
  rewrite Forall_forall in Hfields, Hpos.
  destruct (Hfields h Hin) as [Ht Hl]. destruct (Hpos h Hin) as [Hp0 _].
  assert (forall j : nat, (j < 4)%nat ->
    host_headers LittleEndian (wire_headers size buf) buf !! (p + j)%nat =
    header_bytes LittleEndian h !! j) as Hbytes.
  { intros j Hj.
    apply (host_headers_bytes LittleEndian size buf (S (Z.to_nat size)) 0 buf);
      (assumption || lia). }
  unfold be16 in Ht, Hl.
  replace (Z.to_nat (h_pos h + 1)) with (p + 1)%nat in Ht by lia.
  replace (Z.to_nat (h_pos h + 2)) with (p + 2)%nat in Hl by lia.
  replace (Z.to_nat (h_pos h + 2 + 1)) with (p + 3)%nat in Hl by lia.
  fold p in Ht.
  destruct (buf !! p) as [b0|]; [|discriminate].
  destruct (buf !! (p + 1)%nat) as [b1|]; [|discriminate].
  destruct (buf !! (p + 2)%nat) as [b2|]; [|discriminate].
  destruct (buf !! (p + 3)%nat) as [b3|]; [|discriminate].
  injection Ht as Ht. injection Hl as Hl.
  assert (header_bytes LittleEndian h = [b1; b0; b3; b2]) as Hhb.
  { unfold header_bytes. rewrite <- Ht, <- Hl.
    rewrite !(store16_be_value LittleEndian). reflexivity. }
  rewrite Hhb in Hbytes.
  pose proof (Hbytes 0%nat ltac:(lia)) as H0. rewrite Nat.add_0_r in H0.
  pose proof (Hbytes 1%nat ltac:(lia)) as H1.
  pose proof (Hbytes 2%nat ltac:(lia)) as H2.
  pose proof (Hbytes 3%nat ltac:(lia)) as H3.
  repeat split; assumption.
Qed.

Lemma little_endian_host_swaps_header_bytes_witness :
  exists c tbl' buf',
    tffs_parse LittleEndian 16 17 ids unknown_then_sentinel =
      Some (Returned c tbl' buf') /\
    buf' !! 8%nat = unknown_then_sentinel !! 9%nat /\
    buf' !! 9%nat = unknown_then_sentinel !! 8%nat /\
    buf' !! 10%nat = unknown_then_sentinel !! 11%nat /\
    buf' !! 11%nat = unknown_then_sentinel !! 10%nat.
Proof.
  eexists _, _, _. split; [vm_compute; reflexivity|].
  eapply (little_endian_host_swaps_header_bytes 16 17 ids unknown_then_sentinel
            _ _ _ (mk_header 8 0xffff 0x1234)).
  - unfold no_wrap. lia.
  - simpl. lia.
  - simpl. lia.
  - vm_compute. reflexivity.
  - replace (wire_headers 16 unknown_then_sentinel)
      with [mk_header 0 0x0001 2; mk_header 8 0xffff 0x1234]
      by (vm_compute; reflexivity).
    apply elem_of_cons. right. apply elem_of_cons. left. reflexivity.
Defined.

(** The count and the table a call leaves do not depend on the byte order
    of the host: both hosts fault on the same buffers and decode the same
    values from the others. *)
Theorem decoded_values_independent_of_host size fuel tbl buf :
  no_wrap size ->
  size <= Z.of_nat (length buf) ->
  (Z.to_nat size < fuel)%nat ->
  (tffs_parse LittleEndian size fuel tbl buf = Some Fault /\
   tffs_parse BigEndian size fuel tbl buf = Some Fault) \/
  exists c tbl' le_buf,
    tffs_parse LittleEndian size fuel tbl buf = Some (Returned c tbl' le_buf) /\
    tffs_parse BigEndian size fuel tbl buf = Some (Returned c tbl' buf).
Proof.
  intros Hnw Hlen Hfuel.
  destruct (tffs_parse_cases LittleEndian size fuel tbl buf Hnw Hlen Hfuel)
    as [[Hn Hf]|(c & t & Hd & Hp)];
  destruct (tffs_parse_cases BigEndian size fuel tbl buf Hnw Hlen Hfuel)
    as [[Hn' Hf']|(c' & t' & Hd' & Hp')]; try congruence.
  - left. split; assumption.
  - right. exists c, t, (host_headers LittleEndian (wire_headers size buf) buf).
    split; [exact Hp|].
    rewrite Hp'. rewrite host_headers_BigEndian by apply headers_from_fields.
    congruence.
Qed.

Lemma decoded_values_independent_of_host_witness :
  (tffs_parse LittleEndian 24 25 ids two_productid = Some Fault /\
   tffs_parse BigEndian 24 25 ids two_productid = Some Fault) \/
  exists c tbl' le_buf,
    tffs_parse LittleEndian 24 25 ids two_productid =
      Some (Returned c tbl' le_buf) /\
    tffs_parse BigEndian 24 25 ids two_productid =
      Some (Returned c tbl' two_productid).
Proof.
  apply (decoded_values_independent_of_host 24 25 ids two_productid).
  - unfold no_wrap. lia.
  - simpl. lia.
  - simpl. lia.
Defined.

(** ** What [main] prints *)

(** [%s] stops at the first zero byte: a stored payload is printed up to
    its first zero byte, whole when it has none. *)
Theorem c_string_stops_at_first_nul (pre rest : list byte) :
  x00 ∉ pre ->
  c_string (pre ++ x00 :: rest) = pre /\
  c_string (pre ++ [x00]) = pre.
Proof.
  intros Hpre.
  assert (forall tl, c_string (pre ++ x00 :: tl) = pre) as H.
  { intros tl. induction pre as [|b pre IH]; simpl; [reflexivity|].
    apply not_elem_of_cons in Hpre as [Hb Hpre].
    destruct (Byte.eqb b x00) eqn:E.
    - apply Byte.byte_dec_bl in E. congruence.
    - rewrite IH by assumption. reflexivity. }
  split; apply H.
Qed.

Lemma c_string_stops_at_first_nul_witness :
  (x00 ∉ [x41; x42]) /\
  c_string ([x41; x42] ++ x00 :: [x44; x00]) = [x41; x42] /\
  c_string ([x41; x42] ++ [x00]) = [x41; x42].
Proof.
  assert (x00 ∉ [x41; x42]) as H.
  { intros Hin. apply elem_of_cons in Hin as [Hin|Hin]; [discriminate|].
    apply elem_of_cons in Hin as [Hin|Hin]; [discriminate|].
    apply elem_of_nil in Hin. exact Hin. }
  split; [exact H|]. exact (c_string_stops_at_first_nul [x41; x42] [x44; x00] H).
Defined.

(** With [-n name] and no [-a], the loop prints the value of the first
    entry that holds a value and has that name, then stops, with
    [ret = EXIT_SUCCESS]; when no entry with a value has that name (the
    name is not in the table, or its entry was not found in the buffer) it
    prints nothing and leaves [ret] as it was, the same in both cases. *)
Theorem show_one_prints_first_match (n : string) (tbl : list tffs_id) (r : Z) :
  (forall pre e v post,
     tbl = pre ++ e :: post ->
     Forall (fun x => val x = None \/ name x <> n) pre ->
     val e = Some v -> name e = n ->
     show_values false (Some n) tbl r =
       Some (c_string v ++ newline, EXIT_SUCCESS)) /\
  (Forall (fun x => val x = None \/ name x <> n) tbl ->
   show_values false (Some n) tbl r = Some ([], r)).
Proof.
  assert (forall l l' res,
    Forall (fun x => val x = None \/ name x <> n) l ->
    show_values false (Some n) l' r = res ->
    show_values false (Some n) (l ++ l') r = res) as Hskip.
  { intros l l' res Hl Hres. induction Hl as [|x l Hx _ IH]; simpl; [exact Hres|].
    destruct (val x) as [v|]; [|exact IH].
    destruct Hx as [Hx|Hx]; [discriminate|].
    destruct (String.eqb_spec n (name x)); [congruence|exact IH]. }
  split.
  - intros pre e v post -> Hpre Hv Hn.
    apply Hskip; [exact Hpre|]. simpl. rewrite Hv, Hn, String.eqb_refl.
    reflexivity.
  - intros Hall. rewrite <- (app_nil_r tbl). apply Hskip; [exact Hall|].
    reflexivity.
Qed.

Lemma show_one_prints_first_match_witness :
  show_values false (Some "productid")
    ([entry 0x0100 "hw_revision"] ++
     store_value 4 2 [x41; x42] (entry 0x0101 "productid") :: []) EXIT_FAILURE
  = Some (c_string ([x41; x42] ++ [x00]) ++ newline, EXIT_SUCCESS) /\
  show_values false (Some "nosuchkey") ids EXIT_FAILURE =
    Some ([], EXIT_FAILURE).
Proof.
  destruct (show_one_prints_first_match "productid"
              ([entry 0x0100 "hw_revision"] ++
               store_value 4 2 [x41; x42] (entry 0x0101 "productid") :: [])
              EXIT_FAILURE) as [Hfound _].
  destruct (show_one_prints_first_match "nosuchkey" ids EXIT_FAILURE)
    as [_ Hmissing].
  split.
  - apply (Hfound [entry 0x0100 "hw_revision"] _ _ [] eq_refl).
    + constructor; [left; reflexivity|constructor].
    + reflexivity.
    + reflexivity.
  - apply Hmissing. unfold ids. repeat (constructor; [left; reflexivity|]).
    constructor.
Defined.

(** With [-a] the loop prints one line [name=value] for every entry that
    holds a value, in the order of the table, whatever [-n] says; [ret]
    becomes [EXIT_SUCCESS] when there is such an entry and stays as it was
    when there is none. *)
Theorem show_all_prints_every_value
    (name_filter : option string) (tbl : list tffs_id) (r : Z) :
  show_values true name_filter tbl r =
    Some (mjoin (show_line <$> List.filter has_value tbl),
          if (count_values tbl =? 0)%nat then r else EXIT_SUCCESS).
Proof.
  revert r. unfold count_values.
  induction tbl as [|e tbl IH]; intros r; simpl; [reflexivity|].
  destruct (val e) as [v|] eqn:Hv.
  - assert (has_value e = true) as -> by (unfold has_value; rewrite Hv; reflexivity).
    assert (show_line e =
            String.list_byte_of_string (name e) ++ [x3d] ++ c_string v ++ newline)
      as Hline by (unfold show_line; rewrite Hv; reflexivity).
    rewrite IH. simpl. rewrite Hline. rewrite <- !app_assoc. simpl.
    destruct (length (List.filter has_value tbl) =? 0)%nat; reflexivity.
  - assert (has_value e = false) as -> by (unfold has_value; rewrite Hv; reflexivity).
    apply IH.
Qed.

(** ** Runs of [main] *)

Lemma show_values_status show_all name_filter tbl : forall r0 out r,
  show_values show_all name_filter tbl r0 = Some (out, r) ->
  (out = [] /\ r = r0) \/ (out <> [] /\ r = EXIT_SUCCESS).
Proof.
  induction tbl as [|e tbl IH]; intros r0 out r; simpl.
  - intros [= <- <-]. left. split; reflexivity.
  - destruct (val e) as [v|]; [|apply IH].
    destruct show_all.
    + destruct (show_values true name_filter tbl EXIT_SUCCESS)
        as [[out' r']|] eqn:Hrest; [|discriminate].
      intros [= <- <-]. right. split.
      * destruct (String.list_byte_of_string (name e)); discriminate.
      * apply IH in Hrest as [[_ ->]|[_ ->]]; reflexivity.
    + destruct name_filter as [n|]; [|discriminate].
      destruct (String.eqb n (name e)); [|apply IH].
      intros [= <- <-]. right. split; [|reflexivity].
      destruct (c_string v); discriminate.
Qed.

(** The exit status of every run that ends is [EXIT_SUCCESS] or
    [EXIT_FAILURE], and it is [EXIT_SUCCESS] exactly when something was
    written to stdout; a successful run writes nothing to stderr. *)
Theorem main_succeeds_iff_it_prints
    host fuel input_file file size show_all name_filter tbl r out err tbl' :
  main host fuel input_file file size show_all name_filter tbl =
    Some (Exit r out err tbl') ->
  (r = EXIT_SUCCESS \/ r = EXIT_FAILURE) /\
  (r = EXIT_SUCCESS <-> out <> []) /\
  (r = EXIT_SUCCESS -> err = EmptyString).
Proof.
  unfold main, EXIT_SUCCESS, EXIT_FAILURE.
  destruct file as [content|].
  2:{ intros [= <- <- _ _]. split; [right; reflexivity|].
      split; [split; [discriminate|congruence]|discriminate]. }
  destruct (Z.of_nat (length content) <? size).
  { intros [= <- <- _ _]. split; [right; reflexivity|].
    split; [split; [discriminate|congruence]|discriminate]. }
  destruct (tffs_parse host size fuel tbl _) as [[c t b|]|]; try discriminate.
  destruct (c =? 0).
  { intros [= <- <- _ _]. split; [right; reflexivity|].
    split; [split; [discriminate|congruence]|discriminate]. }
  destruct (show_values show_all name_filter t 1) as [[o r1]|] eqn:Hs;
    [|discriminate].
  intros [= <- <- <- _].
  apply show_values_status in Hs as [[-> ->]|[Ho ->]].
  - split; [right; reflexivity|].
    split; [split; [discriminate|congruence]|discriminate].
  - split; [left; reflexivity|]. split; [split; [intros _; exact Ho|reflexivity]|].
    intros _. destruct name_filter; reflexivity.
Qed.

Lemma main_succeeds_iff_it_prints_witness :
  exists r out err tbl',
    main LittleEndian 17 "tffs.bin" (Some productid_with_nul) 16 true None ids =
      Some (Exit r out err tbl') /\
    (r = EXIT_SUCCESS \/ r = EXIT_FAILURE) /\
    (r = EXIT_SUCCESS <-> out <> []) /\
    (r = EXIT_SUCCESS -> err = EmptyString).
Proof.
  eexists _, _, _, _. split; [vm_compute; reflexivity|].
  eapply (main_succeeds_iff_it_prints LittleEndian 17 "tffs.bin"
            (Some productid_with_nul) 16 true None ids).
  vm_compute. reflexivity.
Defined.

Lemma show_values_skip n r (l l' : list tffs_id) res :
  Forall (fun x => val x = None \/ name x <> n) l ->
  show_values false (Some n) l' r = res ->
  show_values false (Some n) (l ++ l') r = res.
Proof.
  intros Hl Hres. induction Hl as [|x l Hx _ IH]; simpl; [exact Hres|].
  destruct (val x) as [v|]; [|exact IH].
  destruct Hx as [Hx|Hx]; [discriminate|].
  destruct (String.eqb_spec n (name x)); [congruence|exact IH].
Qed.

Lemma length_buffer_read (content : list byte) size :
  0 <= size -> size <= Z.of_nat (length content) ->
  Z.of_nat (length (take (Z.to_nat size) content)) = size.
Proof. intros H0 H1. rewrite length_take. lia. Qed.

(** From the file to the terminal.  The file is at least [tffs_size] bytes
    long, the payload windows of the records with known tags lie in its
    first [tffs_size] bytes, and [r] is the last record with its tag, which
    [tffs_find_id] resolves to the only entry named [n].  Then the run
    with [-n n] prints the payload of [r] up to its first zero byte and a
    newline, nothing on stderr, and exits with [EXIT_SUCCESS]. *)
Theorem main_prints_requested_value
    host fuel input_file content size n tbl pre r post i e :
  no_wrap size -> 0 <= size ->
  size <= Z.of_nat (length content) ->
  (Z.to_nat size < fuel)%nat ->
  wire_records size (take (Z.to_nat size) content) = pre ++ r :: post ->
  Forall (fun h => h_tag h <> h_tag r) post ->
  Forall (fun h => registered tbl h = true ->
                   in_bounds (take (Z.to_nat size) content) h = true)
         (wire_records size (take (Z.to_nat size) content)) ->
  tffs_find_id tbl (h_tag r) = Some i ->
  tbl !! i = Some e -> name e = n ->
  (forall j e', tbl !! j = Some e' -> name e' = n -> j = i) ->
  exists tbl',
    main host fuel input_file (Some content) size false (Some n) tbl =
      Some (Exit EXIT_SUCCESS
              (c_string (payload (take (Z.to_nat size) content) r ++ [x00])
                 ++ newline)
              EmptyString tbl').
Proof.
  intros Hnw H0 Hlen Hfuel Hrec Hpost Hall Hfind He Hn Huniq.
  set (buf := take (Z.to_nat size) content) in *.
  assert (Z.of_nat (length buf) = size) as Hbuf
    by (apply length_buffer_read; assumption).
  destruct (tffs_parse_returns host size fuel tbl buf Hnw ltac:(lia) Hfuel Hall)
    as (c & tbl' & Hd & Hp).
  pose proof (decode_records_count _ _ _ _ _ _ Hd) as Hc.
  pose proof (decode_records_keys _ _ _ _ _ _ Hd) as Hk.
  pose proof (wire_records_range size buf) as Hrange.
  rewrite Hrec in Hd, Hrange, Hc.
  apply Forall_app in Hrange as [_ Hrange].
  apply Forall_cons in Hrange as [Hr Hrange].
  destruct (decode_records_last buf pre r post tbl 0 c tbl' i e Hd Hfind He)
    as [_ Hi].
  { eapply not_found_at_other_tag;
      [exact (proj1 Hr)|exact Hfind|exact Hrange|exact Hpost]. }
  assert (c <> 0) as Hc0.
  { rewrite List.filter_app in Hc. simpl in Hc.
    unfold registered in Hc at 2. rewrite Hfind in Hc.
    rewrite length_app in Hc. simpl in Hc. lia. }
  exists tbl'. unfold main.
  destruct (Z.ltb_spec (Z.of_nat (length content)) size); [lia|].
  fold buf. rewrite Hp.
  destruct (Z.eqb_spec c 0); [contradiction|].
  rewrite <- (take_drop_middle tbl' i _ Hi).
  rewrite (show_values_skip n EXIT_FAILURE _ _
             (Some (c_string (payload buf r ++ [x00]) ++ newline, EXIT_SUCCESS))).
  - reflexivity.
  - apply Forall_forall. intros x Hx.
    apply list_elem_of_lookup in Hx as [j Hj].
    pose proof (lookup_lt_Some _ _ _ Hj) as Hjlt.
    rewrite length_take in Hjlt.
    rewrite lookup_take_lt in Hj by lia.
    right. intros Hname.
    apply (f_equal (fun l => l !! j)) in Hk.
    rewrite !list_lookup_fmap, Hj in Hk. simpl in Hk.
    destruct (tbl !! j) as [e0|] eqn:He0; [|discriminate].
    injection Hk as _ Hk.
    assert (j = i) by (apply (Huniq j e0 He0); congruence). lia.
  - simpl. rewrite Hn, String.eqb_refl. reflexivity.
Qed.

Lemma main_prints_requested_value_witness :
  exists tbl',
    main LittleEndian 17 "tffs.bin" (Some productid_with_nul) 16 false
      (Some "productid") ids =
    Some (Exit EXIT_SUCCESS
            (c_string (payload (take (Z.to_nat 16) productid_with_nul)
                         (mk_header 0 0x0101 4) ++ [x00]) ++ newline)
            EmptyString tbl').
Proof.
  apply (main_prints_requested_value LittleEndian 17 "tffs.bin"
           productid_with_nul 16 "productid" ids [] (mk_header 0 0x0101 4) []
           1%nat (entry 0x0101 "productid")).
  - unfold no_wrap. lia.
  - lia.
  - simpl. lia.
  - simpl. lia.
  - vm_compute. reflexivity.
  - constructor.
  - replace (wire_records 16 (take (Z.to_nat 16) productid_with_nul))
      with [mk_header 0 0x0101 4] by (vm_compute; reflexivity).
    repeat (constructor; [intros _; vm_compute; reflexivity|]). constructor.
  - reflexivity.
  - reflexivity.
  - reflexivity.
  - intros j e' Hj Hname.
    do 25 (destruct j as [|j];
           [injection Hj as <-; first [reflexivity|discriminate Hname]|]).
    discriminate Hj.
Defined.

Lemma shadowed_entry_never_found tbl (i j : nat) ei ej tag :
  tbl !! i = Some ei -> tbl !! j = Some ej -> (i < j)%nat -> id ei = id ej ->
  tffs_find_id tbl tag <> Some j.
Proof.
  intros Hi Hj Hlt Hid Hf.
  apply tffs_find_from_Some in Hf as (_ & (e & He & Hide) & Hfirst).
  rewrite Nat.sub_0_r in He, Hfirst.
  apply (Hfirst i ei Hlt Hi). congruence.
Qed.

(** An entry whose tag is also the tag of an earlier entry of the table
    can never be printed: whatever the file holds, the run with [-n] and
    the name of such an entry ends in a fault of the scan or exits with
    [EXIT_FAILURE] and an empty stdout.  In [ids] this is
    [usb_revision_id], whose tag 0x01A3 is also that of [usb_device_id]
    before it. *)
Theorem main_never_prints_shadowed_key
    host fuel input_file file size tbl (i j : nat) ei ej :
  no_wrap size -> 0 <= size ->
  (Z.to_nat size < fuel)%nat ->
  tbl !! i = Some ei -> tbl !! j = Some ej -> (i < j)%nat ->
  id ei = id ej -> val ej = None ->
  (forall k e', tbl !! k = Some e' -> name e' = name ej -> k = j) ->
  main host fuel input_file file size false (Some (name ej)) tbl = Some Crash \/
  exists err tbl',
    main host fuel input_file file size false (Some (name ej)) tbl =
      Some (Exit EXIT_FAILURE [] err tbl').
Proof.
  intros Hnw H0 Hfuel Hi Hj Hlt Hid Hval Huniq. unfold main.
  destruct file as [content|]; [|right; eauto].
  destruct (Z.ltb_spec (Z.of_nat (length content)) size); [right; eauto|].
  set (buf := take (Z.to_nat size) content).
  assert (Z.of_nat (length buf) = size) as Hbuf
    by (apply length_buffer_read; lia).
  destruct (tffs_parse_cases host size fuel tbl buf Hnw ltac:(lia) Hfuel)
    as [[_ Hf]|(c & tbl' & Hd & Hp)].
  - left. rewrite Hf. reflexivity.
  - right. rewrite Hp. destruct (c =? 0); [eauto|].
    pose proof (decode_records_keys _ _ _ _ _ _ Hd) as Hk.
    assert (tbl' !! j = tbl !! j) as Hsame.
    { eapply decode_records_untouched; [exact Hd|].
      apply Forall_forall. intros h _.
      exact (shadowed_entry_never_found tbl i j ei ej _ Hi Hj Hlt Hid). }
    rewrite <- (app_nil_r tbl').
    rewrite (show_values_skip (name ej) EXIT_FAILURE tbl' []
               (Some ([], EXIT_FAILURE))).
    + simpl. eauto.
    + apply Forall_lookup. intros k x Hx.
      destruct (decide (k = j)) as [->|Hne].
      * left. rewrite Hsame, Hj in Hx. injection Hx as <-. exact Hval.
      * right. intros Hname.
        apply (f_equal (fun l => l !! k)) in Hk.
        rewrite !list_lookup_fmap, Hx in Hk. simpl in Hk.
        destruct (tbl !! k) as [e0|] eqn:He0; [|discriminate].
        injection Hk as _ Hk.
        apply Hne, (Huniq k e0 He0). congruence.
    + reflexivity.
Qed.

Lemma main_never_prints_shadowed_key_witness :
  main LittleEndian 17 "tffs.bin" (Some usb_record) 16 false
    (Some "usb_revision_id") ids = Some Crash \/
  exists err tbl',
    main LittleEndian 17 "tffs.bin" (Some usb_record) 16 false
      (Some "usb_revision_id") ids = Some (Exit EXIT_FAILURE [] err tbl').
Proof.
  apply (main_never_prints_shadowed_key LittleEndian 17 "tffs.bin"
           (Some usb_record) 16 ids 13%nat 14%nat
           (entry 0x01A3 "usb_device_id") (entry 0x01A3 "usb_revision_id")).
  - unfold no_wrap. lia.
  - lia.
  - simpl. lia.
  - reflexivity.
  - reflexivity.
  - lia.
  - reflexivity.
  - reflexivity.
  - intros k e' Hk Hname.
    do 25 (destruct k as [|k];
           [injection Hk as <-; first [reflexivity|discriminate Hname]|]).
    discriminate Hk.
Defined.

(** A file without a record of a known tag, such as erased flash, makes
    every run fail with the "No values found" message: nothing is printed
    and the table is left as it was, whatever [-a] and [-n] ask for. *)
Theorem main_reports_no_values
    host fuel input_file content size show_all name_filter tbl :
  no_wrap size -> 0 <= size ->
  size <= Z.of_nat (length content) ->
  (Z.to_nat size < fuel)%nat ->
  List.filter (registered tbl)
    (wire_records size (take (Z.to_nat size) content)) = [] ->
  main host fuel input_file (Some content) size show_all name_filter tbl =
    Some (Exit EXIT_FAILURE []
            (String.append "ERROR: No values found in tffs file "
               (String.append input_file nl)) tbl).
Proof.
  intros Hnw H0 Hlen Hfuel Hnone. unfold main.
  destruct (Z.ltb_spec (Z.of_nat (length content)) size); [lia|].
  set (buf := take (Z.to_nat size) content) in *.
  assert (Z.of_nat (length buf) = size) as Hbuf
    by (apply length_buffer_read; lia).
  destruct (tffs_parse_cases host size fuel tbl buf Hnw ltac:(lia) Hfuel)
    as [[Hn _]|(c & tbl' & Hd & Hp)].
  - rewrite (decode_records_none_registered _ _ _ _ Hnone) in Hn. discriminate.
  - rewrite (decode_records_none_registered _ _ _ _ Hnone) in Hd.
    injection Hd as <- <-. rewrite Hp. reflexivity.
Qed.

Lemma main_reports_no_values_witness :
  main LittleEndian 17 "tffs.bin" (Some only_sentinel) 16 true None ids =
    Some (Exit EXIT_FAILURE []
            (String.append "ERROR: No values found in tffs file "
               (String.append "tffs.bin" nl)) ids).
Proof.
  apply (main_reports_no_values LittleEndian 17 "tffs.bin" only_sentinel 16
           true None ids).
  - unfold no_wrap. lia.
  - lia.
  - simpl. lia.
  - simpl. lia.
  - vm_compute. reflexivity.
Defined.

(** ** Buffers laid out as the format says *)

Lemma be16_of_bytes v : 0 <= v < 65536 ->
  256 * byte_to_Z (Z_to_byte (v / 256)) + byte_to_Z (Z_to_byte (v mod 256)) = v.
Proof.
  intros Hv. rewrite !byte_to_Z_to_byte.
  pose proof (Z.div_mod v 256 ltac:(lia)).
  pose proof (Z.mod_pos_bound v 256 ltac:(lia)).
  assert (0 <= v / 256 < 256)
    by (split; [apply Z.div_pos; lia|apply Z.div_lt_upper_bound; lia]).
  rewrite (Z.mod_small (v / 256)), (Z.mod_small (v mod 256)) by lia. lia.
Qed.

Lemma be16_drop buf p b0 b1 rest :
  0 <= p -> drop (Z.to_nat p) buf = b0 :: b1 :: rest ->
  be16 buf p = Some (256 * byte_to_Z b0 + byte_to_Z b1).
Proof.
  intros Hp Hd. unfold be16.
  pose proof (lookup_drop buf (Z.to_nat p) 0) as H0.
  pose proof (lookup_drop buf (Z.to_nat p) 1) as H1.
  rewrite Hd in H0, H1. simpl in H0, H1.
  rewrite Nat.add_0_r in H0.
  replace (Z.to_nat (p + 1)) with (Z.to_nat p + 1)%nat by lia.
  rewrite <- H0, <- H1. reflexivity.
Qed.

Lemma length_layout_record r :
  Z.of_nat (length (layout_record r)) = 4 + padded (Z.of_nat (length (snd r))).
Proof.
  unfold layout_record, be16_bytes.
  pose proof (padded_bounds (Z.of_nat (length (snd r))) ltac:(lia)).
  rewrite !length_app, length_replicate. simpl. lia.
Qed.

Lemma drop_further (buf : list byte) p l rest :
  0 <= p -> drop (Z.to_nat p) buf = l ++ rest ->
  drop (Z.to_nat (p + Z.of_nat (length l))) buf = rest.
Proof.
  intros Hp Hd.
  replace (Z.to_nat (p + Z.of_nat (length l)))
    with (Z.to_nat p + length l)%nat by lia.
  rewrite <- drop_drop, Hd. apply drop_app_length.
Qed.

Lemma headers_from_S fuel size buf p :
  headers_from (S fuel) size buf p =
  if p + 4 <? size then
    match be16 buf p, be16 buf (p + 2) with
    | Some tag, Some L =>
      mk_header p tag L ::
        (if tag =? sentinel then []
         else headers_from fuel size buf (p + 4 + padded L))
    | _, _ => []
    end
  else [].
Proof. reflexivity. Qed.

(** The scan of a laid-out stream finds the header of each record. *)
Lemma headers_from_layout size buf : forall recs fuel p tail,
  Forall well_formed_record recs ->
  0 <= p ->
  drop (Z.to_nat p) buf = layout recs ++ tail ->
  p + Z.of_nat (length (layout recs)) + 4 < size ->
  (Z.to_nat (size - p) < fuel)%nat ->
  headers_from fuel size buf p =
  headers_of p recs ++
  headers_from fuel size buf (p + Z.of_nat (length (layout recs))).
Proof.
  induction recs as [|r recs IH]; intros fuel p tail Hwf Hp Hd Hroom Hfuel.
  - simpl. rewrite Z.add_0_r. reflexivity.
  - apply Forall_cons in Hwf as [[Htag HL] Hwf].
    change (layout (r :: recs)) with (layout_record r ++ layout recs) in *.
    rewrite length_app, Nat2Z.inj_add in Hroom |- *.
    pose proof (length_layout_record r) as Hlr.
    pose proof (padded_bounds (Z.of_nat (length (snd r))) ltac:(lia)) as Hpad.
    destruct fuel as [|fuel]; [lia|].
    rewrite (headers_from_fuel size buf (S fuel) fuel
               (p + (Z.of_nat (length (layout_record r)) +
                     Z.of_nat (length (layout recs))))) by lia.
    rewrite headers_from_S.
    destruct (Z.ltb_spec (p + 4) size); [|lia].
    rewrite <- app_assoc in Hd.
    assert (be16 buf p = Some (fst r)) as ->.
    { unfold layout_record, be16_bytes in Hd. simpl in Hd.
      rewrite (be16_drop buf p _ _ _ Hp Hd).
      rewrite be16_of_bytes by lia. reflexivity. }
    assert (be16 buf (p + 2) = Some (Z.of_nat (length (snd r)))) as ->.
    { unfold layout_record, be16_bytes in Hd. simpl in Hd.
      apply (drop_further buf p [_; _]) in Hd; [|lia]. simpl in Hd.
      change (Z.of_nat 2) with 2 in Hd.
      rewrite (be16_drop buf (p + 2) _ _ _ ltac:(lia) Hd).
      rewrite be16_of_bytes by lia. reflexivity. }
    destruct (Z.eqb_spec (fst r) sentinel) as [Hs|_];
      [unfold sentinel in Hs; lia|].
    change (headers_of p (r :: recs))
      with (mk_header p (fst r) (Z.of_nat (length (snd r))) ::
            headers_of (p + 4 + padded (Z.of_nat (length (snd r)))) recs).
    rewrite <- app_comm_cons. f_equal.
    pose proof (drop_further buf p (layout_record r) _ Hp Hd) as Hd1.
    rewrite Hlr, Z.add_assoc in Hd1.
    set (p1 := p + 4 + padded (Z.of_nat (length (snd r)))) in *.
    assert (0 <= p1) as Hp1 by (unfold p1; lia).
    assert (p1 + Z.of_nat (length (layout recs)) + 4 < size) as Hroom1
      by (unfold p1; lia).
    assert (Z.to_nat (size - p1) < fuel)%nat as Hfuel1 by (unfold p1; lia).
    rewrite (IH fuel p1 tail Hwf Hp1 Hd1 Hroom1 Hfuel1).
    f_equal. f_equal. unfold p1. lia.
Qed.

Lemma headers_of_records p recs :
  Forall well_formed_record recs ->
  List.filter is_record (headers_of p recs) = headers_of p recs.
Proof.
  intros Hwf. revert p.
  induction Hwf as [|r recs [Htag _] _ IH]; intros p; simpl; [reflexivity|].
  unfold is_record at 1. simpl.
  destruct (Z.eqb_spec (fst r) sentinel) as [Hs|_];
    [unfold sentinel in Hs; lia|].
  simpl. f_equal. apply IH.
Qed.

(** The records of a laid-out stream that ends with the sentinel. *)
Lemma wire_records_layout recs rest :
  Forall well_formed_record recs ->
  (3 <= length rest)%nat ->
  let buf := layout recs ++ xff :: xff :: rest in
  wire_records (Z.of_nat (length buf)) buf = headers_of 0 recs.
Proof.
  intros Hwf Hrest buf. unfold wire_records, wire_headers.
  assert (Z.of_nat (length buf) =
          Z.of_nat (length (layout recs)) + 2 + Z.of_nat (length rest)) as Hlen
    by (unfold buf; rewrite length_app; simpl; lia).
  rewrite (headers_from_layout _ buf recs _ 0 (xff :: xff :: rest) Hwf);
    [|lia|reflexivity|lia|lia].
  rewrite List.filter_app, headers_of_records by assumption.
  replace (List.filter is_record (headers_from _ _ buf _)) with (@nil header);
    [apply app_nil_r|].
  destruct rest as [|l0 [|l1 rest]]; cbn [length] in Hrest, Hlen; try lia.
  rewrite headers_from_S.
  destruct (Z.ltb_spec (0 + Z.of_nat (length (layout recs)) + 4)
              (Z.of_nat (length buf))); [|lia].
  assert (drop (Z.to_nat (0 + Z.of_nat (length (layout recs)))) buf =
          xff :: xff :: l0 :: l1 :: rest) as Hd
    by (apply (drop_further buf 0 (layout recs)); [lia|reflexivity]).
  rewrite (be16_drop buf (0 + Z.of_nat (length (layout recs))) _ _ _
             ltac:(lia) Hd).
  apply (drop_further buf _ [_; _]) in Hd; [|lia]. simpl in Hd.
  change (Z.of_nat 2) with 2 in Hd.
  rewrite (be16_drop buf (0 + Z.of_nat (length (layout recs)) + 2) _ _ _
             ltac:(lia) Hd).
  reflexivity.
Qed.

Lemma headers_of_layout buf : forall recs p tail,
  0 <= p ->
  drop (Z.to_nat p) buf = layout recs ++ tail ->
  Forall2 (header_of_record buf) (headers_of p recs) recs.
Proof.
  induction recs as [|r recs IH]; intros p tail Hp Hd; simpl headers_of;
    constructor.
  - change (layout (r :: recs)) with (layout_record r ++ layout recs) in Hd.
    rewrite <- app_assoc in Hd.
    pose proof (length_layout_record r) as Hlr.
    pose proof (padded_bounds (Z.of_nat (length (snd r))) ltac:(lia)) as Hpad.
    pose proof (f_equal length Hd) as Hlen.
    rewrite length_drop, length_app in Hlen.
    split; [reflexivity|]. split; [reflexivity|]. split.
    + unfold payload, payload_pos. simpl.
      unfold layout_record, be16_bytes in Hd. simpl in Hd.
      apply (drop_further buf p [_; _; _; _]) in Hd; [|lia]. simpl in Hd.
      change (Z.of_nat 4) with 4 in Hd. rewrite Hd, Nat2Z.id.
      rewrite <- app_assoc. apply take_app_length.
    + unfold in_bounds, payload_pos. simpl. apply Z.leb_le. lia.
  - change (layout (r :: recs)) with (layout_record r ++ layout recs) in Hd.
    rewrite <- app_assoc in Hd.
    pose proof (length_layout_record r) as Hlr.
    pose proof (padded_bounds (Z.of_nat (length (snd r))) ltac:(lia)) as Hpad.
    pose proof (drop_further buf p (layout_record r) _ Hp Hd) as Hd1.
    rewrite Hlr, Z.add_assoc in Hd1.
    apply (IH _ tail); [lia|exact Hd1].
Qed.

Lemma known_registered buf tbl hs recs :
  Forall2 (header_of_record buf) hs recs ->
  length (List.filter (registered tbl) hs) =
  length (List.filter (known tbl) recs).
Proof.
  induction 1 as [|h r hs recs (Ht & _) _ IH]; simpl; [reflexivity|].
  unfold registered at 1, known at 1. rewrite Ht.
  destruct (tffs_find_id tbl (fst r)); simpl; rewrite IH; reflexivity.
Qed.

(** The round trip of the format.  The buffer holds the layout of a list
    of records (tags other than 0xFFFF, payloads shorter than 65536
    bytes), the sentinel, and at least three more bytes.  Then the scan
    returns, without a fault; the count is the number of records with a
    tag of the table; the entry a tag resolves to holds the payload of the
    last record with that tag, followed by a NUL, and its length; an entry
    that no record resolves to is as it was. *)
Theorem scan_of_laid_out_stream host fuel tbl recs rest :
  Forall well_formed_record recs ->
  (3 <= length rest)%nat ->
  no_wrap (Z.of_nat (length (layout recs ++ xff :: xff :: rest))) ->
  (length (layout recs ++ xff :: xff :: rest) < fuel)%nat ->
  exists tbl' buf',
    tffs_parse host (Z.of_nat (length (layout recs ++ xff :: xff :: rest)))
      fuel tbl (layout recs ++ xff :: xff :: rest) =
      Some (Returned (Z.of_nat (length (List.filter (known tbl) recs)))
              tbl' buf') /\
    (forall pre tag pl post i e,
       recs = pre ++ (tag, pl) :: post ->
       Forall (fun r => fst r <> tag) post ->
       tffs_find_id tbl tag = Some i -> tbl !! i = Some e ->
       exists e',
         tbl' !! i = Some e' /\ name e' = name e /\
         val e' = Some (pl ++ [x00]) /\ len e' = Z.of_nat (length pl)) /\
    (forall i,
       Forall (fun r => tffs_find_id tbl (fst r) <> Some i) recs ->
       tbl' !! i = tbl !! i).
Proof.
  intros Hwf Hrest Hnw Hfuel.
  set (buf := layout recs ++ xff :: xff :: rest) in *.
  set (size := Z.of_nat (length buf)) in *.
  assert (wire_records size buf = headers_of 0 recs) as Hrec
    by (apply wire_records_layout; assumption).
  pose proof (headers_of_layout buf recs 0 (xff :: xff :: rest)
                ltac:(lia) eq_refl) as Hmap.
  assert (Forall (fun h => registered tbl h = true -> in_bounds buf h = true)
                 (wire_records size buf)) as Hall.
  { rewrite Hrec. eapply Forall2_Forall_l; [exact Hmap|].
    apply Forall_forall. intros r _ h (_ & _ & _ & Hb) _. exact Hb. }
  destruct (tffs_parse_returns host size fuel tbl buf Hnw ltac:(lia)
              ltac:(unfold size; lia) Hall) as (c & tbl' & Hd & Hp).
  rewrite Hrec in Hd.
  exists tbl', (host_headers host (wire_headers size buf) buf).
  split; [|split].
  - rewrite Hp. do 2 f_equal.
    rewrite (decode_records_count _ _ _ _ _ _ Hd).
    rewrite (known_registered buf tbl _ _ Hmap). lia.
  - intros pre tag pl post i e -> Hpost Hfind He.
    apply Forall2_app_inv_r in Hmap as (hpre & htl & _ & Htl & Hsplit).
    apply Forall2_cons_inv_r in Htl as (h & hpost & (Ht & Hl & Hpl & _) & Hpost2 & ->).
    simpl in Ht, Hl, Hpl.
    rewrite Hsplit in Hd. rewrite <- Ht in Hfind.
    destruct (decode_records_last buf hpre h hpost tbl 0 c tbl' i e Hd Hfind He)
      as [_ Hi].
    { eapply Forall2_Forall_l; [exact Hpost2|].
      apply Forall_forall. intros r Hr h' (Ht' & Hl' & _) Hf.
      rewrite Forall_forall in Hpost, Hwf.
      apply (Hpost r Hr).
      assert (well_formed_record r) as [Hrt _]
        by (apply Hwf; apply elem_of_app; right; apply elem_of_cons; right;
            exact Hr).
      assert (well_formed_record (tag, pl)) as [Htg _]
        by (apply Hwf; apply elem_of_app; right; apply elem_of_cons; left;
            reflexivity).
      simpl in Htg.
      rewrite Ht' in Hf. rewrite Ht in Hfind.
      eapply (tffs_find_id_inj tbl (fst r) tag i); (assumption || lia). }
    eexists. split; [exact Hi|]. simpl. rewrite Hpl, Hl.
    repeat split; reflexivity.
  - intros i Hnone.
    eapply decode_records_untouched; [exact Hd|].
    eapply Forall2_Forall_l; [exact Hmap|].
    apply Forall_forall. intros r Hr h (Ht & _) .
    rewrite Ht. rewrite Forall_forall in Hnone. exact (Hnone r Hr).
Qed.

Lemma scan_of_laid_out_stream_witness :
  exists tbl' buf',
    tffs_parse LittleEndian
      (Z.of_nat (length (layout [(0x0101, [x41; x42; x43]); (0x0001, [x68]);
                                 (0x0101, [x57; x58; x59; x5a; x5b])]
                         ++ xff :: xff :: [x00; x00; xff])))
      40 ids
      (layout [(0x0101, [x41; x42; x43]); (0x0001, [x68]);
               (0x0101, [x57; x58; x59; x5a; x5b])]
       ++ xff :: xff :: [x00; x00; xff]) =
      Some (Returned 2 tbl' buf') /\
    val <$> tbl' !! 1%nat = Some (Some [x57; x58; x59; x5a; x5b; x00]).
Proof.
  destruct (scan_of_laid_out_stream LittleEndian 40 ids
              [(0x0101, [x41; x42; x43]); (0x0001, [x68]);
               (0x0101, [x57; x58; x59; x5a; x5b])]
              [x00; x00; xff])
    as (tbl' & buf' & Hp & Hlast & _).
  - repeat (constructor; [split; simpl; lia|]). constructor.
  - simpl. lia.
  - unfold no_wrap. vm_compute. discriminate.
  - vm_compute. lia.
  - exists tbl', buf'. split; [exact Hp|].
    destruct (Hlast [(0x0101, [x41; x42; x43]); (0x0001, [x68])] 0x0101
                [x57; x58; x59; x5a; x5b] [] 1%nat (entry 0x0101 "productid")
                eq_refl ltac:(constructor) eq_refl eq_refl)
      as (e' & He' & _ & Hv & _).
    rewrite He'. simpl. rewrite Hv. reflexivity.
Defined.

(** ** The cursor, the loop and its end *)








